(** * libftpp: Pool, DataBuffer and StateMachine

    A shallow embedding of the three core classes of libftpp
    ([data_structures.hpp] and [design_patterns.hpp]) and the properties
    of their operations, followed by the classes built beside them:
    [Memento], [Observer] and [Singleton].

    Conventions of the embedding
    - a member function that mutates [*this] is a computation in the
      monad [M S A := S -> outcome A * S]: it returns normally with a
      value or throws a [std::runtime_error], and in both cases hands back
      the object as the call left it;
    - [std::vector<char>] and [std::string] are lists of bytes;
      [std::queue<size_t>] is a list, pushed at the back and popped at the
      front; [std::map] is a [gmap];
    - the [std::function<void()>] callables supplied by the client are
      total: they return normally and do not touch the component that
      calls them; a constructor of the pooled [TType] returns a value or
      throws. *)

From stdpp Require Import gmap list strings.
From coqutil Require Import Word.LittleEndianList.
From Stdlib Require Import ZArith Lia Init.Byte Sorting.Permutation.

(** ** Exceptions and the state-and-exception monad *)

(** Every failure of the library is a [std::runtime_error] carrying a
    message. *)
Inductive exn : Type :=
| runtime_error (what : string).

Definition PoolExhausted : exn := runtime_error "Pool is empty"%string.
Definition BufferUnderflow : exn := runtime_error "Buffer underflow"%string.
Definition UnregisteredState : exn := runtime_error "State not registered"%string.
Definition InvalidTransition : exn := runtime_error "Invalid transition"%string.
Definition MissingAction : exn := runtime_error "No action for current state"%string.

Inductive outcome (A : Type) : Type :=
| Returns (a : A)
| Throws (e : exn).
Arguments Returns {A} a.
Arguments Throws {A} e.

Definition M (S A : Type) : Type := S -> outcome A * S.

Definition ret {S A} (a : A) : M S A := fun s => (Returns a, s).

Definition throw {S A} (e : exn) : M S A := fun s => (Throws e, s).

Definition bind {S A B} (m : M S A) (k : A -> M S B) : M S B :=
  fun s =>
    match m s with
    | (Returns a, s') => k a s'
    | (Throws e, s') => (Throws e, s')
    end.

Definition get {S} : M S S := fun s => (Returns s, s).

Definition put {S} (s : S) : M S unit := fun _ => (Returns tt, s).

#[export] Instance M_ret {S} : MRet (M S) := fun A => @ret S A.
#[export] Instance M_bind {S} : MBind (M S) := fun A B k m => @bind S A B m k.

(** ** DataBuffer *)

Module DataBuffer.

(** A type that [operator<<] and [operator>>] may copy with
    [std::memcpy]: [sizeof T] bytes of object representation, from which
    the value is recovered.  [representable] singles out the values of
    the Rocq carrier that the C++ type holds. *)
Class FixedSize (T : Type) : Type := {
  sizeof : nat;
  representable : T -> Prop;
  object_bytes : T -> list byte;
  from_bytes : list byte -> T;
  sizeof_pos : 0 < sizeof;
  object_bytes_length : forall v, length (object_bytes v) = sizeof;
  from_object_bytes : forall v, representable v -> from_bytes (object_bytes v) = v
}.
Arguments sizeof T {_}.

(** [char]: one byte. *)
#[export, refine] Instance char_FixedSize : FixedSize byte := {|
  sizeof := 1;
  representable := fun _ => True;
  object_bytes := fun c => [c];
  from_bytes := fun bs => match bs with c :: _ => c | [] => Byte.x00 end
|}.
Proof. - lia. - reflexivity. - reflexivity. Defined.

(** Unsigned integers of [n] bytes, little-endian. *)
Definition uint_FixedSize (n : nat) (Hn : 0 < n) : FixedSize Z.
Proof.
  refine {|
    sizeof := n;
    representable := fun z => (0 <= z < 2 ^ (Z.of_nat n * 8))%Z;
    object_bytes := fun z => le_split n z;
    from_bytes := fun bs => le_combine bs
  |}.
  - exact Hn.
  - intros v. apply length_le_split.
  - intros v Hv. rewrite le_combine_split. apply Z.mod_small. exact Hv.
Defined.

(** [size_t] on an LP64 little-endian host: 8 bytes. *)
Definition size_t : Type := Z.

#[export] Instance size_t_FixedSize : FixedSize size_t :=
  uint_FixedSize 8 ltac:(lia).

Definition uint32_t : Type := Z.

Definition uint32_t_FixedSize : FixedSize uint32_t :=
  uint_FixedSize 4 ltac:(lia).

(** [std::string]: a sequence of [char]. *)
Abbreviation std_string := (list byte).

Record DataBuffer : Type := mkDataBuffer { buffer : list byte }.

(** A default-constructed buffer holds no byte. *)
Definition empty : DataBuffer := {| buffer := [] |}.

(** [std::vector<char>::resize(n)]: truncate, or pad with zero bytes. *)
Definition vector_resize (n : nat) (v : list byte) : list byte :=
  take n v ++ replicate (n - length v) Byte.x00.

(** [std::memcpy(v.data() + off, src, length src)]. *)
Definition memcpy_at (off : nat) (src : list byte) (v : list byte) : list byte :=
  take off v ++ src ++ drop (off + length src) v.

(** [template<typename T> DataBuffer& operator<<(const T& data)] *)
Definition shl {T} `{FixedSize T} (data : T) : M DataBuffer unit :=
  fun this =>
    let currentSize := length (buffer this) in
    let resized := vector_resize (currentSize + sizeof T) (buffer this) in
    (Returns tt, {| buffer := memcpy_at currentSize (object_bytes data) resized |}).

(** [template<typename T> DataBuffer& operator>>(T& data)]; the value
    copied into [data] is the result. *)
Definition shr (T : Type) `{FixedSize T} : M DataBuffer T :=
  fun this =>
    if length (buffer this) <? sizeof T then
      (Throws BufferUnderflow, this)
    else
      let data := from_bytes (take (sizeof T) (buffer this)) in
      (Returns data, {| buffer := drop (sizeof T) (buffer this) |}).

(** [DataBuffer& operator<<(const std::string& str)] *)
Definition shl_string (str : std_string) : M DataBuffer unit :=
  let len : size_t := (Z.of_nat (length str) mod 2 ^ 64)%Z in
  _ ← shl len;
  this ← get;
  let currentSize := length (buffer this) in
  let resized := vector_resize (currentSize + Z.to_nat len) (buffer this) in
  put {| buffer := memcpy_at currentSize (take (Z.to_nat len) str) resized |}.

(** [DataBuffer& operator>>(std::string& str)]; the string assigned to
    [str] is the result. *)
Definition shr_string : M DataBuffer std_string :=
  len ← shr size_t;
  this ← get;
  if (Z.of_nat (length (buffer this)) <? len)%Z then
    throw BufferUnderflow
  else
    _ ← put {| buffer := drop (Z.to_nat len) (buffer this) |};
    mret (take (Z.to_nat len) (buffer this)).

(** A value together with its fixed-size type: one element of a
    heterogeneous sequence [v1..vn]. *)
Record ftype : Type := mkFtype { carrier : Type; carrier_fixed : FixedSize carrier }.
Record fvalue : Type := mkFvalue { type_of : ftype; value_of : carrier type_of }.

Definition shl_fvalue (v : fvalue) : M DataBuffer unit :=
  @shl (carrier (type_of v)) (carrier_fixed (type_of v)) (value_of v).

Definition shr_fvalue (t : ftype) : M DataBuffer fvalue :=
  x ← @shr (carrier t) (carrier_fixed t);
  mret (mkFvalue t x).

(** [buf << v1 << ... << vn] *)
Fixpoint shl_all (vs : list fvalue) : M DataBuffer unit :=
  match vs with
  | [] => mret tt
  | v :: vs' => _ ← shl_fvalue v; shl_all vs'
  end.

(** [buf >> x1 >> ... >> xn] *)
Fixpoint shr_all (ts : list ftype) : M DataBuffer (list fvalue) :=
  match ts with
  | [] => mret []
  | t :: ts' => x ← shr_fvalue t; xs ← shr_all ts'; mret (x :: xs)
  end.

Definition fvalue_representable (v : fvalue) : Prop :=
  @representable _ (carrier_fixed (type_of v)) (value_of v).

(** The bytes of [v1..vn], one object representation after the other. *)
Definition layout (vs : list fvalue) : list byte :=
  flat_map (fun v => @object_bytes _ (carrier_fixed (type_of v)) (value_of v)) vs.

(** Concrete fixed-size types and a mixed sequence of values. *)
Definition t_char : ftype := mkFtype byte char_FixedSize.
Definition t_size_t : ftype := mkFtype size_t size_t_FixedSize.
Definition t_uint32_t : ftype := mkFtype uint32_t uint32_t_FixedSize.

Definition sample_values : list fvalue :=
  [mkFvalue t_char Byte.x61; mkFvalue t_size_t 258%Z;
   mkFvalue t_uint32_t 4294967295%Z; mkFvalue t_char Byte.x7a].

(** "hello" *)
Definition hello : std_string := [Byte.x68; Byte.x65; Byte.x6c; Byte.x6c; Byte.x6f].

(** A buffer that announces a text of five characters and holds two. *)
Definition truncated_text : DataBuffer :=
  {| buffer := object_bytes (5%Z : size_t) ++ [Byte.x68; Byte.x65] |}.

(** [int] on the same host: 4 bytes, two's complement. *)
Definition int : Type := Z.

Definition int_FixedSize : FixedSize int.
Proof.
  refine {|
    sizeof := 4;
    representable := fun z => (- 2 ^ 31 <= z < 2 ^ 31)%Z;
    object_bytes := fun z => le_split 4 z;
    from_bytes := fun bs =>
      let u := le_combine bs in
      if (u <? 2 ^ 31)%Z then u else (u - 2 ^ 32)%Z
  |}.
  - lia.
  - intros v. apply length_le_split.
  - intros v Hv. cbv zeta. rewrite le_combine_split.
    change (Z.of_nat 4 * 8)%Z with 32%Z.
    destruct (Z.ltb_spec (v mod 2 ^ 32) (2 ^ 31)) as [Hlt | Hge].
    + destruct (Z.neg_nonneg_cases v) as [Hneg | Hpos].
      * rewrite <- (Z.mod_add v 1), Z.mod_small in Hlt by lia. lia.
      * apply Z.mod_small. lia.
    + destruct (Z.neg_nonneg_cases v) as [Hneg | Hpos].
      * rewrite <- (Z.mod_add v 1), Z.mod_small by lia. lia.
      * rewrite Z.mod_small in Hge by lia. lia.
Defined.

(** One operand of a chain of [<<] or [>>]: a value of a fixed-size
    type, for the template operators, or a [std::string], for the
    overloads. *)
Inductive item : Type :=
| Fixed (v : fvalue)
| Text (str : std_string).

Inductive kind : Type :=
| KFixed (t : ftype)
| KText.

Definition kind_of (i : item) : kind :=
  match i with
  | Fixed v => KFixed (type_of v)
  | Text _ => KText
  end.

Definition shl_item (i : item) : M DataBuffer unit :=
  match i with
  | Fixed v => shl_fvalue v
  | Text str => shl_string str
  end.

Definition shr_item (k : kind) : M DataBuffer item :=
  match k with
  | KFixed t => v ← shr_fvalue t; mret (Fixed v)
  | KText => str ← shr_string; mret (Text str)
  end.

(** [buf << i1 << ... << in] *)
Fixpoint shl_items (its : list item) : M DataBuffer unit :=
  match its with
  | [] => mret tt
  | i :: its' => _ ← shl_item i; shl_items its'
  end.

(** [buf >> x1 >> ... >> xn] *)
Fixpoint shr_items (ks : list kind) : M DataBuffer (list item) :=
  match ks with
  | [] => mret []
  | k :: ks' => x ← shr_item k; xs ← shr_items ks'; mret (x :: xs)
  end.

(** A value its type holds; a text whose length is a [size_t]. *)
Definition item_representable (i : item) : Prop :=
  match i with
  | Fixed v => fvalue_representable v
  | Text str => (Z.of_nat (length str) < 2 ^ 64)%Z
  end.

(** The bytes of one operand: the object representation, or the length
    as a [size_t] followed by the characters. *)
Definition item_bytes (i : item) : list byte :=
  match i with
  | Fixed v => @object_bytes _ (carrier_fixed (type_of v)) (value_of v)
  | Text str => object_bytes (Z.of_nat (length str) : size_t) ++ str
  end.

Definition encoding (its : list item) : list byte := flat_map item_bytes its.

Definition t_int : ftype := mkFtype int int_FixedSize.

(** A record written field by field: a number, a text, a byte. *)
Definition sample_items : list item :=
  [Fixed (mkFvalue t_int (-7)%Z); Text hello; Fixed (mkFvalue t_char Byte.x21)].

End DataBuffer.

(** ** Pool *)

Module Pool.

(** A constructor that always returns. *)
Definition returning {A B : Type} (build : A -> B) : A -> outcome B :=
  fun a => Returns (build a).

Section Pool.

(** The pooled type: [default_construct] is [TType()], [construct] stands
    for the constructors that [acquire] forwards its arguments to; such a
    constructor returns the object or throws. *)
Context {TType TArgs : Type}.
Variable default_construct : TType.
Variable construct : TArgs -> outcome TType.

Record Pool : Type := mkPool {
  storage : list TType;
  available : list nat
}.

(** A default-constructed pool: no slot, no free index. *)
Definition empty : Pool := {| storage := []; available := [] |}.

(** The [Pool<TType>*] member of an [Object]: null, or the pool that
    issued it. *)
Inductive pool_ptr : Type :=
| nullptr
| this_pool.

Record Object : Type := mkObject {
  pool : pool_ptr;
  index : nat
}.

(** [~Object()] *)
Definition destroy (o : Object) (p : Pool) : Pool :=
  match pool o with
  | this_pool => {| storage := storage p; available := available p ++ [index o] |}
  | nullptr => p
  end.

(** [TType* operator->()]: the slot the lease designates. *)
Definition arrow (o : Object) (p : Pool) : option TType :=
  match pool o with
  | this_pool => storage p !! index o
  | nullptr => None
  end.

(** [Object(Object&& other)]: the new object, and [other] as the move
    leaves it. *)
Definition move (other : Object) : Object * Object :=
  ({| pool := pool other; index := index other |},
   {| pool := nullptr; index := index other |}).

(** The loop of [resize]; each iteration lengthens [storage], so
    [numberOfObjectStored] iterations are enough fuel. *)
Fixpoint resize_loop (fuel : nat) (numberOfObjectStored : nat) (p : Pool) : Pool :=
  match fuel with
  | 0 => p
  | S fuel' =>
      if length (storage p) <? numberOfObjectStored then
        let storage' := storage p ++ [default_construct] in
        resize_loop fuel' numberOfObjectStored
          {| storage := storage'; available := available p ++ [length storage' - 1] |}
      else p
  end.

(** [void resize(const size_t& numberOfObjectStored)] *)
Definition resize (numberOfObjectStored : nat) (p : Pool) : Pool :=
  resize_loop numberOfObjectStored numberOfObjectStored p.

(** [template<typename... TArgs> Object acquire(TArgs&&... p_args)].
    The index is popped before [std::make_unique<TType>(...)] runs the
    constructor: when the constructor throws, the exception leaves
    [acquire] with the queue already shortened, the slot not assigned and
    no [Object] built.  [storage[index]] is a list update; the C++ is
    undefined for an index past the end, which the queue of a pool never
    holds (see [wf_slots] below). *)
Definition acquire (p_args : TArgs) : M Pool Object :=
  fun p =>
    match available p with
    | [] => (Throws PoolExhausted, p)
    | index :: rest =>
        match construct p_args with
        | Returns object =>
            (Returns {| pool := this_pool; index := index |},
             {| storage := <[index := object]> (storage p); available := rest |})
        | Throws e =>
            (Throws e, {| storage := storage p; available := rest |})
        end
    end.

(** *** A client of the pool

    The pool together with the [Object]s alive in the client's scopes.
    The client grows the pool, acquires (a call that throws is caught and
    the client carries on), lets an object go out of scope, moves an
    object, or writes through a lease.  A step that names no live object
    does nothing, and so does a write through a moved-from object, which
    the C++ leaves undefined. *)
Record client : Type := mkClient {
  the_pool : Pool;
  live : list Object
}.

Definition start : client := {| the_pool := empty; live := [] |}.

Inductive op : Type :=
| Resize (numberOfObjectStored : nat)
| Acquire (p_args : TArgs)
| Release (k : nat)
| Move (k : nat)
| Mutate (k : nat) (f : TType -> TType).

Definition exec (c : client) (o : op) : client :=
  match o with
  | Resize n => {| the_pool := resize n (the_pool c); live := live c |}
  | Acquire p_args =>
      match acquire p_args (the_pool c) with
      | (Returns obj, p') => {| the_pool := p'; live := live c ++ [obj] |}
      | (Throws _, p') => {| the_pool := p'; live := live c |}
      end
  | Release k =>
      match live c !! k with
      | Some obj => {| the_pool := destroy obj (the_pool c); live := delete k (live c) |}
      | None => c
      end
  | Move k =>
      match live c !! k with
      | Some other =>
          let '(new, moved_from) := move other in
          {| the_pool := the_pool c; live := <[k := moved_from]> (live c) ++ [new] |}
      | None => c
      end
  | Mutate k f =>
      match live c !! k with
      | Some obj =>
          match pool obj with
          | this_pool =>
              {| the_pool := {| storage := alter f (index obj) (storage (the_pool c));
                                available := available (the_pool c) |};
                 live := live c |}
          | nullptr => c
          end
      | None => c
      end
  end.

Definition run (ops : list op) : client := foldl exec start ops.

(** The slot index an object holds a lease on, if it holds one. *)
Definition leased (o : Object) : option nat :=
  match pool o with
  | this_pool => Some (index o)
  | nullptr => None
  end.

Definition leases (c : client) : list nat := omap leased (live c).

(** How many times [i] sits in the free queue, and how many live objects
    hold a lease on it. *)
Definition times_free (i : nat) (c : client) : nat :=
  length (filter (eq i) (available (the_pool c))).

Definition times_leased (i : nat) (c : client) : nat :=
  length (filter (eq i) (leases c)).

(** Destroy a batch of objects, in the given order. *)
Definition destroy_all (os : list Object) (p : Pool) : Pool :=
  foldl (fun q o => destroy o q) p os.

(** [n] successive moves starting from [o]: the moved-from objects left
    behind, and the final owner. *)
Fixpoint move_chain (n : nat) (o : Object) : list Object * Object :=
  match n with
  | 0 => ([], o)
  | S n' =>
      let '(new, moved_from) := move o in
      let '(behind, final) := move_chain n' new in
      (moved_from :: behind, final)
  end.

(** The index that a step drops: an [acquire] whose constructor throws
    has popped its index and hands it to nobody. *)
Definition dropped (c : client) (o : op) : list nat :=
  match o with
  | Acquire p_args =>
      match available (the_pool c), construct p_args with
      | index :: _, Throws _ => [index]
      | _, _ => []
      end
  | _ => []
  end.

(** A run that also keeps the list of the indices dropped on the way. *)
Definition exec_lost (cl : client * list nat) (o : op) : client * list nat :=
  (exec cl.1 o, cl.2 ++ dropped cl.1 o).

Definition lost (ops : list op) : list nat := (foldl exec_lost (start, []) ops).2.

(** The constructor returns for every [acquire] of the run. *)
Definition constructors_return (ops : list op) : Prop :=
  Forall (fun o => match o with
                   | Acquire p_args => exists object, construct p_args = Returns object
                   | _ => True
                   end) ops.

(** Every slot index is accounted for once: the free queue, the leases
    held by live objects and the indices dropped so far together list
    [0 .. storage.size()). *)
Definition wf_slots (c : client) (dropped_so_far : list nat) : Prop :=
  available (the_pool c) ++ leases c ++ dropped_so_far
  ≡ₚ seq 0 (length (storage (the_pool c))).

(** [acquire] called once for each argument pack, in order; the first
    call that throws ends the run. *)
Fixpoint acquire_each (calls : list TArgs) : M Pool (list Object) :=
  match calls with
  | [] => mret []
  | p_args :: calls' =>
      o ← acquire p_args;
      os ← acquire_each calls';
      mret (o :: os)
  end.

(** The lease on slot [i]. *)
Definition lease (i : nat) : Object := {| pool := this_pool; index := i |}.

End Pool.

(** A pool of counters built from a number, and a client that grows it
    to one slot, takes the slot, bumps the counter and lets it go. *)
Definition counter_session : list (@op nat nat) :=
  [Resize 1; Acquire 5; Mutate 0 (fun x => x + 100); Release 0].

Definition counter_run : client :=
  run 0 (returning (fun n : nat => n)) counter_session.

(** A client that holds the only slot through a moved lease. *)
Definition moved_run : client :=
  run 0 (returning (fun n : nat => n)) [Resize 1; Acquire 5; Move 0].

(** A pooled type whose constructor rejects the argument 0, and a client
    that grows the pool to one slot and calls [acquire(0)]. *)
Definition picky (n : nat) : outcome nat :=
  match n with
  | 0 => Throws (runtime_error "bad argument"%string)
  | S _ => Returns n
  end.

Definition picky_run : client := run 0 picky [Resize 1; Acquire 0].

End Pool.

(** ** StateMachine *)

Module StateMachine.

Section StateMachine.

(** [TState] keys three [std::map]s.  [World] is whatever the actions
    act upon; a [std::function<void()>] is a procedure on it. *)
Context {TState : Type} `{Countable TState}.
Context {World : Type}.

Definition Action : Type := World -> World.

Record StateMachine : Type := mkStateMachine {
  currentState : TState;
  stateActions : gmap TState Action;
  transitions : gmap (TState * TState) Action;
  states : gmap TState bool
}.

(** A machine as its constructor leaves it: empty maps, and whatever
    value [currentState] starts with. *)
Definition fresh (initial : TState) : StateMachine :=
  {| currentState := initial; stateActions := ∅; transitions := ∅; states := ∅ |}.

Definition set_states (f : gmap TState bool -> gmap TState bool) (m : StateMachine)
  : StateMachine :=
  {| currentState := currentState m; stateActions := stateActions m;
     transitions := transitions m; states := f (states m) |}.

(** [states[state]] read as an rvalue: [std::map::operator[]] inserts a
    value-initialised [bool] when the key is absent. *)
Definition states_subscript (state : TState) : M StateMachine bool :=
  fun m =>
    match states m !! state with
    | Some b => (Returns b, m)
    | None => (Returns false, set_states <[state := false]> m)
    end.

(** [void addState(const TState& state)] *)
Definition addState (state : TState) : M StateMachine unit :=
  fun m => (Returns tt, set_states <[state := true]> m).

(** [void addTransition(startState, finalState, lambda)]; [||] evaluates
    its right operand only when the left one is false. *)
Definition addTransition (startState finalState : TState) (lambda : Action)
  : M StateMachine unit :=
  s ← states_subscript startState;
  if negb s then throw UnregisteredState
  else
    f ← states_subscript finalState;
    if negb f then throw UnregisteredState
    else
      fun m =>
        (Returns tt,
         {| currentState := currentState m; stateActions := stateActions m;
            transitions := <[(startState, finalState) := lambda]> (transitions m);
            states := states m |}).

(** [void addAction(const TState& state, lambda)] *)
Definition addAction (state : TState) (lambda : Action) : M StateMachine unit :=
  s ← states_subscript state;
  if negb s then throw UnregisteredState
  else
    fun m =>
      (Returns tt,
       {| currentState := currentState m;
          stateActions := <[state := lambda]> (stateActions m);
          transitions := transitions m; states := states m |}).

(** [void transitionTo(const TState& state)], on the machine and the
    world its actions act upon. *)
Definition transitionTo (state : TState) : M (StateMachine * World) unit :=
  fun '(m, w) =>
    match (transitions m !! (currentState m, state) : option Action) with
    | None => (Throws InvalidTransition, (m, w))
    | Some action =>
        let w' := action w in
        (Returns tt,
         ({| currentState := state; stateActions := stateActions m;
             transitions := transitions m; states := states m |}, w'))
    end.

(** [void update()] *)
Definition update : M (StateMachine * World) unit :=
  fun '(m, w) =>
    match (stateActions m !! currentState m : option Action) with
    | None => (Throws MissingAction, (m, w))
    | Some action => (Returns tt, (m, action w))
    end.

Definition getCurrentState (m : StateMachine) : TState := currentState m.

(** [states.find(state) != states.end()] *)
Definition hasState (state : TState) (m : StateMachine) : bool :=
  match states m !! state with
  | Some _ => true
  | None => false
  end.

Definition hasTransition (from to : TState) (m : StateMachine) : bool :=
  match transitions m !! (from, to) with
  | Some _ => true
  | None => false
  end.

Definition hasAction (state : TState) (m : StateMachine) : bool :=
  match stateActions m !! state with
  | Some _ => true
  | None => false
  end.

(** The states that [addState] registered: those the map sends to
    [true]. *)
Definition registered (state : TState) (m : StateMachine) : Prop :=
  states m !! state = Some true.

(** The calls that set a machine up.  A call that throws leaves the
    machine as the throw left it; the client carries on. *)
Inductive call : Type :=
| AddState (state : TState)
| AddTransition (startState finalState : TState) (lambda : Action)
| AddAction (state : TState) (lambda : Action).

Definition perform (m : StateMachine) (c : call) : StateMachine :=
  match c with
  | AddState state => (addState state m).2
  | AddTransition startState finalState lambda =>
      (addTransition startState finalState lambda m).2
  | AddAction state lambda => (addAction state lambda m).2
  end.

Definition configure (initial : TState) (calls : list call) : StateMachine :=
  foldl perform (fresh initial) calls.

(** [state] was passed to [addState] by one of the calls. *)
Definition added (state : TState) (calls : list call) : Prop :=
  Exists (fun c => match c with AddState s => s = state | _ => False end) calls.

(** What a client does with a machine: set-up calls, transitions and
    updates, in any order.  A call that throws leaves machine and world
    as the throw left them. *)
Inductive use : Type :=
| Setup (c : call)
| TransitionTo (state : TState)
| Update.

Definition step (mw : StateMachine * World) (u : use) : StateMachine * World :=
  match u with
  | Setup c => (perform mw.1 c, mw.2)
  | TransitionTo state => (transitionTo state mw).2
  | Update => (update mw).2
  end.

Definition session (initial : TState) (w : World) (uses : list use)
  : StateMachine * World :=
  foldl step (fresh initial, w) uses.

(** Every edge joins two registered states and every per-state action
    belongs to a registered state. *)
Definition well_registered (m : StateMachine) : Prop :=
  (forall from to : TState,
      is_Some (transitions m !! (from, to)) -> registered from m /\ registered to m)
  /\ (forall state : TState, is_Some (stateActions m !! state) -> registered state m).

End StateMachine.

Arguments StateMachine TState {_ _} World.
Arguments call TState World : clear implicits.
Arguments use TState World : clear implicits.

(** A machine over numbered states whose actions count their calls:
    states 0 and 1 registered, one edge from 0 to 1, current state 0. *)
Definition tick : @Action nat := S.

Definition two_states : StateMachine nat nat :=
  {| currentState := 0; stateActions := ∅;
     transitions := {[ (0, 1) := tick ]};
     states := {[ 0 := true; 1 := true ]} |}.

End StateMachine.

(** ** Memento *)

Module Memento.

Import DataBuffer.

(** [class Snapshot]: a [DataBuffer] behind two forwarding operators. *)
Record Snapshot : Type := mkSnapshot { snapshot_buffer : DataBuffer }.

(** A default-constructed snapshot. *)
Definition new_Snapshot : Snapshot := {| snapshot_buffer := DataBuffer.empty |}.

(** [Snapshot& operator<<(const T& data) { buffer << data; ... }] and
    [Snapshot& operator>>(T& data) { buffer >> data; ... }]: the
    operation runs on the member buffer; for a [std::string] the call
    inside resolves to the buffer's string overload. *)
Definition forward {A} (op : M DataBuffer A) : M Snapshot A :=
  fun this =>
    match op (snapshot_buffer this) with
    | (r, b) => (r, {| snapshot_buffer := b |})
    end.

Section Memento.

(** The state of the class that derives from [Memento], and its two
    overrides, which act on the object and on the snapshot they are
    handed. *)
Context {Derived : Type}.
Variable _saveToSnapshot : M (Derived * Snapshot) unit.
Variable _loadFromSnapshot : M (Derived * Snapshot) unit.

(** [Snapshot save()] *)
Definition save : M Derived Snapshot :=
  fun this =>
    match _saveToSnapshot (this, new_Snapshot) with
    | (Returns _, (this', snapshot)) => (Returns snapshot, this')
    | (Throws e, (this', _)) => (Throws e, this')
    end.

(** [void load(const Snapshot& state)]: the override reads from a copy
    of [state]. *)
Definition load (state : Snapshot) : M Derived unit :=
  fun this =>
    let snapshot := state in
    match _loadFromSnapshot (this, snapshot) with
    | (r, (this', _)) => (r, this')
    end.

End Memento.

(** The class of the header's example:
    [class Player : public Memento { int health; std::string name; ... }]. *)
Record Player : Type := mkPlayer {
  health : int;
  name : std_string
}.

(** [snap << health << name;] *)
Definition Player_saveToSnapshot : M (Player * Snapshot) unit :=
  fun '(this, snap) =>
    match (_ ← forward (@shl int int_FixedSize (health this));
           forward (shl_string (name this))) snap with
    | (r, snap') => (r, (this, snap'))
    end.

(** [snap >> health >> name;]: each read stores into its member as soon
    as it succeeds. *)
Definition Player_loadFromSnapshot : M (Player * Snapshot) unit :=
  fun '(this, snap) =>
    match forward (@shr int int_FixedSize) snap with
    | (Throws e, snap1) => (Throws e, (this, snap1))
    | (Returns h, snap1) =>
        let this1 := {| health := h; name := name this |} in
        match forward shr_string snap1 with
        | (Throws e, snap2) => (Throws e, (this1, snap2))
        | (Returns str, snap2) => (Returns tt, ({| health := h; name := str |}, snap2))
        end
    end.

Definition Player_save : M Player Snapshot := save Player_saveToSnapshot.

Definition Player_load (state : Snapshot) : M Player unit :=
  load Player_loadFromSnapshot state.

Definition player_ok (p : Player) : Prop :=
  (- 2 ^ 31 <= health p < 2 ^ 31)%Z /\ (Z.of_nat (length (name p)) < 2 ^ 64)%Z.

End Memento.

(** ** Observer *)

Module Observer.

Section Observer.

Context {TEvent : Type} `{Countable TEvent}.
Context {World : Type}.

(** A subscribed [std::function<void()>]. *)
Definition Callback : Type := World -> World.

Record Observer : Type := mkObserver {
  subscribers : gmap TEvent (list Callback)
}.

Definition empty : Observer := {| subscribers := ∅ |}.

(** [subscribers[event]]: the vector stored under [event], inserted
    empty when the key is absent. *)
Definition subscribers_subscript (event : TEvent) : M Observer (list Callback) :=
  fun this =>
    match (subscribers this !! event : option (list Callback)) with
    | Some lambdas => (Returns lambdas, this)
    | None => (Returns [], {| subscribers := <[event := []]> (subscribers this) |})
    end.

(** Write through the reference that [subscribers[event]] returned. *)
Definition assign (event : TEvent) (lambdas : list Callback) : M Observer unit :=
  fun this => (Returns tt, {| subscribers := <[event := lambdas]> (subscribers this) |}).

(** [void subscribe(const TEvent& event, lambda)]:
    [subscribers[event].push_back(lambda)]. *)
Definition subscribe (event : TEvent) (lambda : Callback) : M Observer unit :=
  lambdas ← subscribers_subscript event;
  assign event (lambdas ++ [lambda]).

(** Call the callbacks one after the other. *)
Definition call_all (lambdas : list Callback) (w : World) : World :=
  foldl (fun w lambda => lambda w) w lambdas.

(** [void notify(const TEvent& event)], on the observer and the world
    the callbacks act upon. *)
Definition notify (event : TEvent) : M (Observer * World) unit :=
  fun '(this, w) =>
    match (subscribers this !! event : option (list Callback)) with
    | Some _ =>
        match subscribers_subscript event this with
        | (Returns lambdas, this') => (Returns tt, (this', call_all lambdas w))
        | (Throws e, this') => (Throws e, (this', w))
        end
    | None => (Returns tt, (this, w))
    end.

(** The observer after a history of [subscribe] calls. *)
Definition subscribe_all (history : list (TEvent * Callback)) (this : Observer) : Observer :=
  foldl (fun o '(event, lambda) => (subscribe event lambda o).2) this history.

(** The callbacks that the history subscribed to [event], oldest
    first. *)
Definition subscribed_to (event : TEvent) (history : list (TEvent * Callback))
  : list Callback :=
  (filter (fun s => s.1 = event) history).*2.

End Observer.

Arguments Observer TEvent {_ _} World.

End Observer.

(** ** Singleton *)

Module Singleton.

Definition InstanceExists : exn := runtime_error "Instance already exists"%string.

Section Singleton.

Context {TType TArgs : Type}.
Variable construct : TArgs -> TType.

(** [static TType* instancePtr]: null, or the object that
    [instanciate] allocated. *)
Definition instancePtr : Type := option TType.

(** The initial value of the static member. *)
Definition initial : instancePtr := None.

(** [static TType* instance()] *)
Definition instance : M instancePtr (option TType) :=
  fun ptr => (Returns ptr, ptr).

(** [static void instanciate(TArgs&&... p_args)] *)
Definition instanciate (p_args : TArgs) : M instancePtr unit :=
  fun ptr =>
    match ptr with
    | Some _ => (Throws InstanceExists, ptr)
    | None => (Returns tt, Some (construct p_args))
    end.

(** A run of [instanciate] calls: the outcome of each, and the pointer
    at the end. *)
Fixpoint instanciate_all (calls : list TArgs) (ptr : instancePtr)
  : list (outcome unit) * instancePtr :=
  match calls with
  | [] => ([], ptr)
  | p_args :: calls' =>
      let '(r, ptr') := instanciate p_args ptr in
      let '(rs, ptr'') := instanciate_all calls' ptr' in
      (r :: rs, ptr'')
  end.

End Singleton.

End Singleton.

(** * Properties *)

(** ** DataBuffer *)

Module DataBufferFacts.

Import DataBuffer.

(** Unfold the monad's plumbing, leaving the operations in place. *)
Ltac run_M := cbv [mbind M_bind bind mret M_ret ret throw get put].

(** *** The layout written by [operator<<] *)

Lemma vector_resize_grow (v : list byte) (k : nat) :
  vector_resize (length v + k) v = v ++ replicate k Byte.x00.
Proof.
  unfold vector_resize.
  rewrite take_ge by lia.
  f_equal. f_equal. lia.
Qed.

Lemma memcpy_at_tail (v src : list byte) :
  memcpy_at (length v) src (v ++ replicate (length src) Byte.x00) = v ++ src.
Proof.
  unfold memcpy_at.
  rewrite take_app_length.
  rewrite drop_ge by (rewrite length_app, length_replicate; lia).
  by rewrite app_nil_r.
Qed.

Lemma shl_appends {T} `{FixedSize T} (data : T) (this : DataBuffer) :
  shl data this = (Returns tt, {| buffer := buffer this ++ object_bytes data |}).
Proof.
  unfold shl. rewrite vector_resize_grow.
  rewrite <- (object_bytes_length data).
  by rewrite memcpy_at_tail.
Qed.

Lemma shr_head {T} `{FixedSize T} (v : T) (rest : list byte) :
  representable v ->
  shr T {| buffer := object_bytes v ++ rest |} = (Returns v, {| buffer := rest |}).
Proof.
  intros Hv. unfold shr. cbn [buffer].
  pose proof (object_bytes_length v) as Hlen.
  destruct (Nat.ltb_spec (length (object_bytes v ++ rest)) (sizeof T)) as [Hlt|_].
  { rewrite length_app in Hlt. lia. }
  rewrite <- Hlen, take_app_length, drop_app_length.
  by rewrite from_object_bytes.
Qed.


Lemma layout_cons (v : fvalue) (vs : list fvalue) :
  layout (v :: vs)
  = @object_bytes _ (carrier_fixed (type_of v)) (value_of v) ++ layout vs.
Proof. reflexivity. Qed.

Lemma shl_all_appends (vs : list fvalue) (this : DataBuffer) :
  shl_all vs this = (Returns tt, {| buffer := buffer this ++ layout vs |}).
Proof.
  revert this. induction vs as [|v vs IH]; intros [b].
  - cbn. by rewrite app_nil_r.
  - rewrite layout_cons. cbn [shl_all]. unfold shl_fvalue. run_M.
    rewrite shl_appends, IH. cbn [buffer]. by rewrite <- app_assoc.
Qed.

Lemma shr_all_layout (vs : list fvalue) (rest : list byte) :
  Forall fvalue_representable vs ->
  shr_all (type_of <$> vs) {| buffer := layout vs ++ rest |}
  = (Returns vs, {| buffer := rest |}).
Proof.
  induction 1 as [|v vs Hv _ IH]; [reflexivity|].
  rewrite layout_cons. cbn [fmap list_fmap shr_all].
  unfold shr_fvalue. run_M.
  rewrite <- app_assoc, (shr_head (value_of v)) by exact Hv.
  rewrite IH. by destruct v.
Qed.

(** C2: writing the fixed-size values [v1..vn], of whatever fixed-size
    types, into an empty buffer with [operator<<] and reading them back
    with [operator>>] at the same types in the same order returns
    [v1..vn], throws nothing and leaves the buffer empty. *)
Theorem shl_all_shr_all_roundtrip (vs : list fvalue) :
  Forall fvalue_representable vs ->
  (shl_all vs ≫= fun _ => shr_all (type_of <$> vs)) empty = (Returns vs, empty).
Proof.
  intros Hvs. run_M.
  rewrite shl_all_appends. cbn [empty buffer app].
  rewrite <- (app_nil_r (layout vs)).
  by rewrite shr_all_layout.
Qed.

Lemma shl_all_shr_all_roundtrip_sample :
  Forall fvalue_representable sample_values /\
  (shl_all sample_values ≫= fun _ => shr_all (type_of <$> sample_values)) empty
  = (Returns sample_values, empty).
Proof.
  assert (Hs : Forall fvalue_representable sample_values).
  { repeat constructor; cbn; lia. }
  split; [exact Hs | exact (shl_all_shr_all_roundtrip sample_values Hs)].
Defined.

(** C4: a fixed-size read from a buffer that holds fewer than
    [sizeof T] bytes, the empty buffer included, throws
    "Buffer underflow" and leaves the buffer, hence its number of
    unconsumed bytes, as it was. *)
Theorem shr_underflow_unchanged {T} `{FixedSize T} (this : DataBuffer) :
  length (buffer this) < sizeof T \/ buffer this = [] ->
  shr T this = (Throws BufferUnderflow, this)
  /\ length (buffer (shr T this).2) = length (buffer this).
Proof.
  intros Hshort.
  assert (Hlt : length (buffer this) < sizeof T).
  { destruct Hshort as [Hlt | ->]; [exact Hlt | exact sizeof_pos]. }
  unfold shr.
  destruct (Nat.ltb_spec (length (buffer this)) (sizeof T)) as [_ | Hge]; [|lia].
  split; reflexivity.
Qed.

Lemma shr_underflow_unchanged_sample :
  (shr size_t {| buffer := [Byte.x01; Byte.x02; Byte.x03] |}
   = (Throws BufferUnderflow, {| buffer := [Byte.x01; Byte.x02; Byte.x03] |})
   /\ length (buffer (shr size_t {| buffer := [Byte.x01; Byte.x02; Byte.x03] |}).2) = 3)
  /\ shr byte empty = (Throws BufferUnderflow, empty).
Proof.
  split.
  - apply (shr_underflow_unchanged (T := size_t)). left. cbn. lia.
  - apply (shr_underflow_unchanged (T := byte) empty). right. reflexivity.
Defined.

(** *** Text *)

Lemma shl_string_appends (str : std_string) (this : DataBuffer) :
  (Z.of_nat (length str) < 2 ^ 64)%Z ->
  shl_string str this
  = (Returns tt,
     {| buffer := buffer this ++ object_bytes (Z.of_nat (length str) : size_t) ++ str |}).
Proof.
  intros Hlen. unfold shl_string. run_M.
  rewrite Z.mod_small by lia.
  rewrite shl_appends. cbn [buffer].
  rewrite Nat2Z.id, firstn_all, vector_resize_grow, memcpy_at_tail.
  by rewrite <- app_assoc.
Qed.

Lemma shr_string_head (str : std_string) (rest : list byte) :
  (Z.of_nat (length str) < 2 ^ 64)%Z ->
  shr_string {| buffer := object_bytes (Z.of_nat (length str) : size_t) ++ str ++ rest |}
  = (Returns str, {| buffer := rest |}).
Proof.
  intros Hlen. unfold shr_string. run_M.
  rewrite shr_head by (cbn; lia). cbn [buffer].
  destruct (Z.ltb_spec (Z.of_nat (length (str ++ rest))) (Z.of_nat (length str)))
    as [Hlt | _].
  { rewrite length_app in Hlt. lia. }
  by rewrite Nat2Z.id, take_app_length, drop_app_length.
Qed.

(** C5: writing a text, the empty text included, into an empty buffer
    with [operator<<] and reading it back with [operator>>] returns the
    same characters and throws nothing.  The bound on the length is the
    one every [std::string] meets: its length is a [size_t]. *)
Theorem shl_string_shr_string_roundtrip (str : std_string) :
  (Z.of_nat (length str) < 2 ^ 64)%Z ->
  (shl_string str ≫= fun _ => shr_string) empty = (Returns str, empty).
Proof.
  intros Hlen. run_M.
  rewrite shl_string_appends by exact Hlen. cbn [empty buffer app].
  rewrite <- (app_nil_r str) at 2.
  by rewrite shr_string_head.
Qed.

Lemma shl_string_shr_string_roundtrip_sample :
  (shl_string [] ≫= fun _ => shr_string) empty = (Returns [], empty)
  /\ (shl_string hello ≫= fun _ => shr_string) empty = (Returns hello, empty).
Proof.
  split.
  - apply (shl_string_shr_string_roundtrip []). cbn. lia.
  - apply (shl_string_shr_string_roundtrip hello). cbn. lia.
Defined.

(** When the length prefix can be read but announces more characters
    than remain, [operator>>] on a string throws after the prefix has
    been erased. *)
Lemma shr_string_underflow_consumes (len : size_t) (payload : list byte) :
  representable len ->
  (Z.of_nat (length payload) < len)%Z ->
  shr_string {| buffer := object_bytes len ++ payload |}
  = (Throws BufferUnderflow, {| buffer := payload |}).
Proof.
  intros Hrep Hshort. unfold shr_string. run_M.
  rewrite shr_head by exact Hrep. cbn [buffer].
  destruct (Z.ltb_spec (Z.of_nat (length payload)) len) as [_ | Hge]; [reflexivity | lia].
Qed.

(** *** Chains of [<<] and [>>] over values and texts *)

Lemma encoding_cons (i : item) (its : list item) :
  encoding (i :: its) = item_bytes i ++ encoding its.
Proof. reflexivity. Qed.

Lemma encoding_app (a b : list item) : encoding (a ++ b) = encoding a ++ encoding b.
Proof. unfold encoding. apply flat_map_app. Qed.

Lemma shl_item_appends (i : item) (this : DataBuffer) :
  item_representable i ->
  shl_item i this = (Returns tt, {| buffer := buffer this ++ item_bytes i |}).
Proof.
  destruct i as [v | str]; cbn [shl_item item_representable item_bytes]; intros Hi.
  - unfold shl_fvalue. apply shl_appends.
  - by apply shl_string_appends.
Qed.

Lemma shr_item_head (i : item) (rest : list byte) :
  item_representable i ->
  shr_item (kind_of i) {| buffer := item_bytes i ++ rest |}
  = (Returns i, {| buffer := rest |}).
Proof.
  destruct i as [v | str]; cbn [shr_item kind_of item_representable item_bytes]; intros Hi.
  - unfold shr_fvalue. run_M. rewrite (shr_head (value_of v)) by exact Hi.
    by destruct v.
  - run_M. rewrite <- app_assoc. by rewrite shr_string_head.
Qed.

Lemma shl_items_appends (its : list item) (this : DataBuffer) :
  Forall item_representable its ->
  shl_items its this = (Returns tt, {| buffer := buffer this ++ encoding its |}).
Proof.
  intros Hits. revert this. induction Hits as [|i its Hi _ IH]; intros [b].
  - cbn. by rewrite app_nil_r.
  - rewrite encoding_cons. cbn [shl_items]. run_M.
    rewrite shl_item_appends, IH by exact Hi. cbn [buffer]. by rewrite <- app_assoc.
Qed.

Lemma shr_items_encoding (its : list item) (rest : list byte) :
  Forall item_representable its ->
  shr_items (kind_of <$> its) {| buffer := encoding its ++ rest |}
  = (Returns its, {| buffer := rest |}).
Proof.
  induction 1 as [|i its Hi _ IH]; [reflexivity|].
  rewrite encoding_cons. cbn [fmap list_fmap shr_items]. run_M.
  rewrite <- app_assoc, shr_item_head by exact Hi. by rewrite IH.
Qed.

(** X1: The buffer is a queue of operands, values and texts alike: after
    [a] and then [b] have been written into an empty buffer, reading at
    the kinds of [a] returns [a] and leaves the buffer exactly as if
    [b] alone had been written.  With [b] empty this is the round trip
    of a mixed sequence. *)
Theorem shl_items_shr_items_fifo (a b : list item) :
  Forall item_representable a ->
  Forall item_representable b ->
  (shl_items a ≫= fun _ => shl_items b ≫= fun _ => shr_items (kind_of <$> a)) empty
  = (Returns a, (shl_items b empty).2).
Proof.
  intros Ha Hb. run_M.
  rewrite !shl_items_appends by assumption. cbn [empty buffer app snd].
  by rewrite shr_items_encoding.
Qed.

Lemma shl_items_shr_items_fifo_sample :
  (shl_items sample_items ≫= fun _ => shl_items [Text []] ≫= fun _ =>
     shr_items (kind_of <$> sample_items)) empty
  = (Returns sample_items, (shl_items [Text []] empty).2).
Proof.
  apply (shl_items_shr_items_fifo sample_items [Text []]).
  - repeat constructor; cbn; lia.
  - repeat constructor; cbn; lia.
Defined.

(** X2: Writing at the tail and reading at the head do not interfere: when
    the buffer already holds the bytes the read needs, writing first and
    reading next gives the same value and the same buffer as reading
    first and writing next. *)
Theorem shl_shr_commute {T U} `{FixedSize T} `{FixedSize U} (v : T) (this : DataBuffer) :
  sizeof U <= length (buffer this) ->
  (shl v ≫= fun _ => shr U) this
  = (shr U ≫= fun x => shl v ≫= fun _ => mret x) this.
Proof.
  intros Hlen. run_M. rewrite shl_appends. unfold shr at 2.
  destruct (Nat.ltb_spec (length (buffer this)) (sizeof U)) as [Hlt | _]; [lia|].
  rewrite shl_appends. unfold shr. cbn [buffer].
  destruct (Nat.ltb_spec (length (buffer this ++ object_bytes v)) (sizeof U)) as [Hlt | _].
  { rewrite length_app in Hlt. lia. }
  by rewrite take_app_le, drop_app_le by exact Hlen.
Qed.

Lemma shl_shr_commute_sample :
  (shl (T := size_t) 9%Z ≫= fun _ => shr byte) {| buffer := [Byte.x41; Byte.x42] |}
  = (shr byte ≫= fun x => shl (T := size_t) 9%Z ≫= fun _ => mret x)
      {| buffer := [Byte.x41; Byte.x42] |}.
Proof.
  apply (shl_shr_commute (T := size_t) (U := byte)). cbn. lia.
Defined.

Lemma shr_all_app (ts1 ts2 : list ftype) (this : DataBuffer) :
  shr_all (ts1 ++ ts2) this
  = (xs ← shr_all ts1; ys ← shr_all ts2; mret (xs ++ ys)) this.
Proof.
  revert this. induction ts1 as [|t ts1 IH]; intros this; cbn [app shr_all]; run_M.
  - by destruct (shr_all ts2 this) as [[ys | e] b].
  - destruct (shr_fvalue t this) as [[x | e] b]; [|reflexivity].
    rewrite IH. run_M.
    destruct (shr_all ts1 b) as [[xs | e] b1]; [|reflexivity].
    by destruct (shr_all ts2 b1) as [[ys | e] b2].
Qed.

(** X3: A chain of reads stops at the first operand the buffer is too short
    for: the call throws "Buffer underflow", the values before it have
    been consumed and the buffer holds what the failing read found. *)
Theorem shr_all_underflow_midway (vs : list fvalue) (t : ftype) (ts : list ftype)
    (short : list byte) :
  Forall fvalue_representable vs ->
  length short < @sizeof _ (carrier_fixed t) ->
  shr_all ((type_of <$> vs) ++ t :: ts) {| buffer := layout vs ++ short |}
  = (Throws BufferUnderflow, {| buffer := short |}).
Proof.
  intros Hvs Hshort. rewrite shr_all_app. run_M.
  rewrite shr_all_layout by exact Hvs.
  cbn [shr_all]. unfold shr_fvalue. run_M. unfold shr. cbn [buffer].
  by destruct (Nat.ltb_spec (length short) (@sizeof _ (carrier_fixed t))); [|lia].
Qed.

Lemma shr_all_underflow_midway_sample :
  shr_all [t_char; t_size_t; t_char] {| buffer := [Byte.x61; Byte.x01; Byte.x02] |}
  = (Throws BufferUnderflow, {| buffer := [Byte.x01; Byte.x02] |}).
Proof.
  apply (shr_all_underflow_midway [mkFvalue t_char Byte.x61] t_size_t [t_char]
           [Byte.x01; Byte.x02]).
  - repeat constructor.
  - cbn. lia.
Defined.

Lemma shr_string_no_prefix (this : DataBuffer) :
  length (buffer this) < 8 -> shr_string this = (Throws BufferUnderflow, this).
Proof.
  intros Hfew. unfold shr_string. run_M. unfold shr. change (sizeof size_t) with 8.
  by destruct (Nat.ltb_spec (length (buffer this)) 8); [|lia].
Qed.

(** X4: What [operator>>] on a string does with any buffer.  Fewer bytes
    than a [size_t]: it throws and the buffer is untouched.  A length
    prefix that announces more characters than follow: it throws with
    the prefix erased.  Otherwise it returns the announced number of
    characters and erases the prefix and those characters, nothing
    more. *)
Theorem shr_string_cases (this : DataBuffer) :
  (length (buffer this) < 8 ->
   shr_string this = (Throws BufferUnderflow, this))
  /\ (8 <= length (buffer this) ->
      (Z.of_nat (length (buffer this) - 8) < le_combine (take 8 (buffer this)))%Z ->
      shr_string this = (Throws BufferUnderflow, {| buffer := drop 8 (buffer this) |}))
  /\ (8 <= length (buffer this) ->
      (le_combine (take 8 (buffer this)) <= Z.of_nat (length (buffer this) - 8))%Z ->
      shr_string this
      = (Returns (take (Z.to_nat (le_combine (take 8 (buffer this))))
                    (drop 8 (buffer this))),
         {| buffer := drop (Z.to_nat (le_combine (take 8 (buffer this))))
                        (drop 8 (buffer this)) |})).
Proof.
  unfold shr_string. run_M. unfold shr.
  change (sizeof size_t) with 8.
  change (@from_bytes size_t size_t_FixedSize) with le_combine.
  destruct (Nat.ltb_spec (length (buffer this)) 8) as [Hlt | Hge].
  - split; [reflexivity | split; intros; lia].
  - cbn [buffer]. rewrite length_drop.
    split; [intros; lia | split; intros _ Hlen].
    + by destruct (Z.ltb_spec (Z.of_nat (length (buffer this) - 8))
                     (le_combine (take 8 (buffer this)))); [|lia].
    + by destruct (Z.ltb_spec (Z.of_nat (length (buffer this) - 8))
                     (le_combine (take 8 (buffer this)))); [lia|].
Qed.

Lemma shr_string_cases_sample :
  shr_string {| buffer := [Byte.x01; Byte.x02; Byte.x03] |}
  = (Throws BufferUnderflow, {| buffer := [Byte.x01; Byte.x02; Byte.x03] |})
  /\ shr_string truncated_text
     = (Throws BufferUnderflow, {| buffer := [Byte.x68; Byte.x65] |}).
Proof.
  split.
  - apply (shr_string_cases {| buffer := [Byte.x01; Byte.x02; Byte.x03] |}).
    cbn. lia.
  - destruct (shr_string_cases truncated_text) as (_ & Hcut & _).
    apply Hcut; [vm_compute; lia | vm_compute; reflexivity].
Defined.

(** X5: A text is stored as its length, written as a [size_t], followed by
    its characters and nothing else: after a text has been written into
    an empty buffer, reading a [size_t] returns its length and leaves
    exactly its characters in the buffer. *)
Theorem shl_string_layout (str : std_string) :
  (Z.of_nat (length str) < 2 ^ 64)%Z ->
  (shl_string str ≫= fun _ => shr size_t) empty
  = (Returns (Z.of_nat (length str)), {| buffer := str |}).
Proof.
  intros Hlen. run_M.
  rewrite shl_string_appends by exact Hlen. cbn [empty buffer app].
  apply (shr_head (T := size_t)). cbn. lia.
Qed.

Lemma shl_string_layout_sample :
  (shl_string hello ≫= fun _ => shr size_t) empty
  = (Returns 5%Z, {| buffer := hello |}).
Proof.
  apply (shl_string_layout hello). cbn. lia.
Defined.

End DataBufferFacts.

(** ** Pool *)

Module PoolFacts.

Import Pool.

Section PoolFacts.

(** [construct] is any constructor, one that may throw; [build] is a
    constructor that returns. *)
Context {TType TArgs : Type}.
Variable default_construct : TType.
Variable construct : TArgs -> outcome TType.
Variable build : TArgs -> TType.

Local Abbreviation Pool := (@Pool TType).
Local Abbreviation client := (@client TType).
Local Abbreviation op := (@op TType TArgs).
Local Abbreviation exec := (exec default_construct construct).
Local Abbreviation run := (run default_construct construct).
Local Abbreviation lost := (lost default_construct construct).
Local Abbreviation exec_lost := (exec_lost default_construct construct).
Local Abbreviation dropped := (dropped construct).
Local Abbreviation constructors_return := (constructors_return construct).
Local Abbreviation resize := (resize default_construct).
Local Abbreviation resize_loop := (resize_loop default_construct).
Local Abbreviation acquire := (acquire construct).

(** *** [resize] *)

Lemma resize_loop_spec (fuel n : nat) (p : Pool) :
  n <= length (storage p) + fuel ->
  storage (resize_loop fuel n p)
  = storage p ++ replicate (n - length (storage p)) default_construct
  /\ available (resize_loop fuel n p)
    = available p ++ seq (length (storage p)) (n - length (storage p)).
Proof.
  revert p. induction fuel as [|fuel IH]; intros p Hfuel; cbn [resize_loop].
  - replace (n - length (storage p)) with 0 by lia. cbn. by rewrite !app_nil_r.
  - destruct (Nat.ltb_spec (length (storage p)) n) as [Hlt | Hge].
    + destruct (IH {| storage := storage p ++ [default_construct];
                      available := available p
                        ++ [length (storage p ++ [default_construct]) - 1] |})
        as [Hs Ha].
      { cbn [storage]. rewrite length_app. cbn. lia. }
      rewrite Hs, Ha. cbn [storage available].
      rewrite !length_app. cbn [length].
      replace (n - length (storage p)) with (S (n - (length (storage p) + 1))) by lia.
      cbn [replicate seq]. rewrite <- !app_assoc. cbn [app].
      split; repeat f_equal; lia.
    + replace (n - length (storage p)) with 0 by lia. cbn. by rewrite !app_nil_r.
Qed.

Lemma resize_spec (n : nat) (p : Pool) :
  storage (resize n p)
  = storage p ++ replicate (n - length (storage p)) default_construct
  /\ available (resize n p)
    = available p ++ seq (length (storage p)) (n - length (storage p)).
Proof. apply resize_loop_spec. lia. Qed.

(** The loop has run to its exit: the fuel was enough. *)
Lemma resize_reaches (n : nat) (p : Pool) : n <= length (storage (resize n p)).
Proof.
  destruct (resize_spec n p) as [-> _].
  rewrite length_app, length_replicate. lia.
Qed.

(** *** The slot invariant *)

Lemma leases_app (l1 l2 : list Object) :
  omap leased (l1 ++ l2) = omap leased l1 ++ omap leased l2.
Proof. apply omap_app. Qed.

Lemma exec_wf_slots (c : client) (gone : list nat) (o : op) :
  wf_slots c gone -> wf_slots (exec c o) (gone ++ dropped c o).
Proof.
  unfold wf_slots, leases. destruct c as [p lv]. cbn [the_pool live].
  intros Hwf.
  destruct o as [n | p_args | k | k | k f]; cbn [Pool.exec Pool.dropped the_pool live];
    rewrite ?app_nil_r.
  - destruct (resize_spec n p) as [-> ->].
    rewrite length_app, length_replicate, seq_app, <- Hwf. cbn [Nat.add].
    rewrite <- !app_assoc. apply Permutation_app_head.
    rewrite (app_assoc (omap leased lv) gone). apply Permutation_app_comm.
  - unfold Pool.acquire. destruct (available p) as [|i rest] eqn:Hav; cbn [the_pool live].
    + by rewrite Hav, app_nil_r.
    + destruct (construct p_args) as [object | e]; cbn [the_pool live storage available].
      * rewrite app_nil_r, length_insert, <- Hwf, leases_app.
        cbn [omap list_omap leased pool index app].
        rewrite <- (app_assoc (omap leased lv)), app_assoc. cbn [app].
        rewrite (app_assoc rest). symmetry. apply Permutation_middle.
      * rewrite <- Hwf, !app_assoc. cbn [app].
        symmetry. apply Permutation_cons_append.
  - destruct (lv !! k) as [obj|] eqn:Hk; cbn [the_pool live]; [|exact Hwf].
    rewrite (delete_Permutation lv k obj Hk) in Hwf.
    unfold destroy. cbn [omap list_omap] in Hwf. unfold leased at 1 in Hwf.
    destruct (pool obj); cbn [storage available]; [exact Hwf|].
    rewrite <- Hwf, <- app_assoc. reflexivity.
  - destruct (lv !! k) as [other|] eqn:Hk; cbn [the_pool live]; [|exact Hwf].
    unfold move. cbn [the_pool live storage available].
    rewrite <- Hwf. apply Permutation_app_head, Permutation_app_tail.
    rewrite leases_app, insert_take_drop by (by eapply lookup_lt_Some).
    rewrite <- (take_drop_middle lv k other Hk) at 3.
    rewrite !leases_app. destruct other as [[|] i]; cbn.
    + by rewrite app_nil_r.
    + rewrite <- app_assoc. apply Permutation_app_head.
      symmetry. apply Permutation_cons_append.
  - destruct (lv !! k) as [obj|] eqn:Hk; cbn [the_pool live]; [|exact Hwf].
    destruct (pool obj); cbn [the_pool live storage available]; [exact Hwf|].
    by rewrite length_alter.
Qed.

Lemma run_exec_lost (ops : list op) :
  foldl exec_lost (start, []) ops = (run ops, lost ops).
Proof.
  unfold Pool.lost, Pool.run. induction ops as [|o ops IH] using rev_ind; [reflexivity|].
  rewrite !foldl_app. cbn [foldl]. rewrite IH. reflexivity.
Qed.

Lemma lost_snoc (ops : list op) (o : op) :
  lost (ops ++ [o]) = lost ops ++ dropped (run ops) o.
Proof.
  unfold Pool.lost at 1. rewrite foldl_app. cbn [foldl].
  by rewrite run_exec_lost.
Qed.

Lemma run_wf_slots (ops : list op) : wf_slots (run ops) (lost ops).
Proof.
  induction ops as [|o ops IH] using rev_ind.
  - unfold wf_slots. reflexivity.
  - rewrite lost_snoc. unfold Pool.run. rewrite foldl_app. cbn [foldl].
    by apply exec_wf_slots.
Qed.

(** Nothing is dropped as long as the constructors return. *)
Lemma lost_nil (ops : list op) : constructors_return ops -> lost ops = [].
Proof.
  unfold Pool.constructors_return.
  induction ops as [|o ops IH] using rev_ind; intros Hops; [reflexivity|].
  apply Forall_app in Hops. destruct Hops as [Hops Ho].
  apply Forall_cons in Ho. destruct Ho as [Ho _].
  rewrite lost_snoc, IH by exact Hops.
  destruct o as [n | p_args | k | k | k f]; try reflexivity.
  destruct Ho as [object Hobject]. cbn [Pool.dropped]. rewrite Hobject.
  by destruct (available (the_pool (run ops))).
Qed.

Lemma filter_eq_absent (i : nat) (l : list nat) :
  i ∉ l -> filter (eq i) l = [].
Proof.
  induction l as [|x l IH]; intros Hi; [reflexivity|].
  apply not_elem_of_cons in Hi as [Hne Hi].
  rewrite filter_cons_False by exact Hne. by apply IH.
Qed.

Lemma count_NoDup_elem (i : nat) (l : list nat) :
  NoDup l -> i ∈ l -> length (filter (eq i) l) = 1.
Proof.
  induction 1 as [|x l Hx Hnd IH]; intros Hi.
  - by apply elem_of_nil in Hi.
  - rewrite filter_cons. destruct (decide (i = x)) as [<- | Hne].
    + cbn [length]. by rewrite filter_eq_absent.
    + apply IH. apply elem_of_cons in Hi as [? | ?]; [contradiction | assumption].
Qed.

(** Every slot is accounted for exactly once, among the free queue, the
    leases of live objects and the indices dropped by acquires whose
    constructor threw. *)
Lemma slot_accounted_once (ops : list op) (i : nat) :
  i < length (storage (the_pool (run ops))) ->
  times_free i (run ops) + times_leased i (run ops)
  + length (filter (eq i) (lost ops)) = 1.
Proof.
  intros Hi. pose proof (run_wf_slots ops) as Hwf. unfold wf_slots in Hwf.
  unfold times_free, times_leased.
  rewrite <- !length_app, <- !filter_app, <- app_assoc, Hwf.
  apply count_NoDup_elem; [apply NoDup_seq | apply elem_of_seq; lia].
Qed.

(** A slot that no throwing constructor has dropped is once in the free
    queue and leased by no live object, or absent from the queue and
    leased by exactly one live object. *)
Lemma slot_free_xor_leased_unless_dropped (ops : list op) (i : nat) :
  i < length (storage (the_pool (run ops))) ->
  i ∉ lost ops ->
  (times_free i (run ops) = 1 /\ times_leased i (run ops) = 0)
  \/ (times_free i (run ops) = 0 /\ times_leased i (run ops) = 1).
Proof.
  intros Hi Hkept. pose proof (slot_accounted_once ops i Hi) as Hone.
  rewrite (filter_eq_absent i (lost ops) Hkept) in Hone. cbn [length] in Hone. lia.
Qed.

(** With a free index at hand, [acquire] passes the constructor's
    exception on after it has popped the index: the queue is one index
    shorter, the slots are as they were and there is no lease. *)
Lemma acquire_constructor_throws (p : Pool) (p_args : TArgs) (i : nat)
    (rest : list nat) (e : exn) :
  available p = i :: rest ->
  construct p_args = Throws e ->
  acquire p_args p = (Throws e, {| storage := storage p; available := rest |}).
Proof. unfold Pool.acquire. by intros -> ->. Qed.

(** C8, on the code: a constructor that throws makes [acquire] lose a
    slot.  On a pool of one slot, [acquire(0)] with a constructor that
    rejects 0 leaves slot 0 neither in the free queue nor on lease, with
    no [Object] alive; the next [acquire] throws "Pool is empty" although
    nothing is leased. *)
Theorem throwing_constructor_drops_slot :
  length (storage (the_pool picky_run)) = 1
  /\ live picky_run = []
  /\ times_free 0 picky_run = 0
  /\ times_leased 0 picky_run = 0
  /\ Pool.acquire picky 5 (the_pool picky_run)
     = (Throws PoolExhausted, the_pool picky_run).
Proof.
  assert (Hrun : picky_run
                 = {| the_pool := {| storage := [0]; available := [] |}; live := [] |})
    by reflexivity.
  rewrite Hrun. repeat split.
Qed.

Lemma run_NoDup (ops : list op) :
  NoDup (available (the_pool (run ops)) ++ leases (run ops)).
Proof.
  pose proof (run_wf_slots ops) as Hwf. unfold wf_slots in Hwf.
  rewrite app_assoc in Hwf.
  assert (Hnd : NoDup ((available (the_pool (run ops)) ++ leases (run ops)) ++ lost ops))
    by (rewrite Hwf; apply NoDup_seq).
  by apply NoDup_app in Hnd as [? _].
Qed.

(** Indices past the end of [storage] are nowhere. *)
Lemma slot_bounds (ops : list op) (i : nat) :
  i ∈ available (the_pool (run ops)) ++ leases (run ops) ->
  i < length (storage (the_pool (run ops))).
Proof.
  intros Hi. pose proof (run_wf_slots ops) as Hwf. unfold wf_slots in Hwf.
  assert (Hin : i ∈ seq 0 (length (storage (the_pool (run ops))))).
  { rewrite <- Hwf, app_assoc. apply elem_of_app. by left. }
  apply elem_of_seq in Hin. lia.
Qed.

(** *** [acquire] *)

(** C6: whatever happened to the slots before (any run of the client,
    writes through earlier leases and acquires whose constructor threw
    included), the lease that [acquire] returns designates the value
    freshly constructed from the arguments of this call. *)
Theorem acquire_reconstructs (ops : list op) (p_args : TArgs)
    (obj : Object) (p' : Pool) :
  acquire p_args (the_pool (run ops)) = (Returns obj, p') ->
  exists object : TType,
    construct p_args = Returns object /\ arrow obj p' = Some object.
Proof.
  intros Hacq. pose proof (slot_bounds ops) as Hb.
  unfold Pool.acquire in Hacq.
  destruct (available (the_pool (run ops))) as [|i rest]; [discriminate|].
  destruct (construct p_args) as [object | e]; [|discriminate].
  exists object. split; [reflexivity|].
  injection Hacq as <- <-. unfold arrow. cbn [pool index storage].
  apply list_lookup_insert_eq, Hb. left.
Qed.

(** C7: [acquire] throws "Pool is empty" and hands the pool back
    unchanged exactly when the free queue is empty.  Any other failure
    of [acquire] is the exception of the constructor it called.  For a
    call whose constructor returns, [acquire] throws "Pool is empty"
    exactly when the free queue is empty, and a call that throws
    produces no lease and hands the pool back unchanged. *)
Theorem acquire_throws_iff_empty (p : Pool) (p_args : TArgs) :
  (acquire p_args p = (Throws PoolExhausted, p) <-> available p = [])
  /\ (forall e, (acquire p_args p).1 = Throws e ->
       available p = [] \/ construct p_args = Throws e)
  /\ ((exists object, construct p_args = Returns object) ->
      ((acquire p_args p).1 = Throws PoolExhausted <-> available p = [])
      /\ (forall e, (acquire p_args p).1 = Throws e ->
           acquire p_args p = (Throws PoolExhausted, p))).
Proof.
  unfold Pool.acquire. destruct (available p) as [|i rest] eqn:Hav.
  - split; [by split | split].
    + intros e _. by left.
    + intros _. cbn [fst]. by repeat split.
  - assert (Hshorter : forall st : list TType,
               {| storage := st; available := rest |} <> p).
    { intros st <-. cbn [available] in Hav.
      apply (f_equal length) in Hav. cbn in Hav. lia. }
    destruct (construct p_args) as [object | e'] eqn:Hconstruct; cbn [fst].
    + split; [split; [discriminate | discriminate] | split].
      * discriminate.
      * intros _. split; [split; discriminate | discriminate].
    + split; [split; [|discriminate] | split].
      * intros [= _ Hp]. by destruct (Hshorter (storage p)).
      * intros e [= <-]. by right.
      * intros [object Hobject]. discriminate.
Qed.

(** *** Moving and destroying an [Object] *)

Lemma destroy_all_spec (os : list Object) (p : Pool) :
  destroy_all os p
  = {| storage := storage p; available := available p ++ omap leased os |}.
Proof.
  unfold destroy_all. revert p. induction os as [|o os IH]; intros p; cbn [foldl].
  - cbn. rewrite app_nil_r. by destruct p.
  - rewrite IH. unfold destroy. cbn [omap list_omap]. unfold leased at 2.
    destruct (pool o); cbn [storage available]; [reflexivity|].
    by rewrite <- app_assoc.
Qed.

Lemma move_chain_spec (n : nat) (o : Object) :
  Forall (fun moved_from => pool moved_from = nullptr) (move_chain n o).1
  /\ (move_chain n o).2 = o.
Proof.
  revert o. induction n as [|n IH]; intros o; cbn [move_chain].
  - split; [constructor | reflexivity].
  - unfold move. destruct (IH {| pool := pool o; index := index o |}) as [Hb Hf].
    destruct (move_chain n {| pool := pool o; index := index o |}) as [behind final].
    cbn [fst snd] in *. split; [by constructor | by destruct o].
Qed.

Lemma leases_moved_from (os : list Object) :
  Forall (fun moved_from => pool moved_from = nullptr) os -> omap leased os = [].
Proof.
  induction 1 as [|o os Ho _ IH]; [reflexivity|].
  cbn [omap list_omap]. unfold leased at 1. by rewrite Ho.
Qed.

Lemma acquire_lease (p : Pool) (p_args : TArgs) (o : Object) :
  (acquire p_args p).1 = Returns o -> pool o = this_pool.
Proof.
  unfold Pool.acquire. destruct (available p); cbn [fst]; [discriminate|].
  destruct (construct p_args); cbn [fst]; [|discriminate].
  by intros [= <-].
Qed.

(** C9: take the lease that [acquire] returned and move it [n] times.
    Destroying any of the moved-from objects pushes nothing; destroying
    the final owner pushes the index; and destroying all of them, in any
    order, leaves the free queue with that index pushed exactly once. *)
Theorem moved_lease_returned_once (p0 : Pool) (p_args : TArgs) (o : Object) (n : nat) :
  (acquire p_args p0).1 = Returns o ->
  Forall (fun moved_from => forall q : Pool, destroy moved_from q = q) (move_chain n o).1
  /\ (forall q : Pool,
        destroy (move_chain n o).2 q
        = {| storage := storage q; available := available q ++ [index o] |})
  /\ (forall (q : Pool) (os : list Object),
        os ≡ₚ (move_chain n o).1 ++ [(move_chain n o).2] ->
        destroy_all os q
        = {| storage := storage q; available := available q ++ [index o] |}).
Proof.
  intros Hbound%acquire_lease.
  destruct (move_chain_spec n o) as [Hbehind Hfinal].
  split; [|split].
  - eapply Forall_impl; [exact Hbehind|].
    intros moved_from Hnull q. unfold destroy. by rewrite Hnull.
  - intros q. rewrite Hfinal. unfold destroy. by rewrite Hbound.
  - intros q os Hos. rewrite destroy_all_spec. do 2 f_equal.
    apply Permutation_singleton_r.
    rewrite Hos, omap_app, (leases_moved_from _ Hbehind), Hfinal.
    cbn. unfold leased. by rewrite Hbound.
Qed.

(** *** Growing *)

Lemma Pool_eq (p q : Pool) :
  storage p = storage q -> available p = available q -> p = q.
Proof. destruct p, q. cbn. by intros -> ->. Qed.

(** X6: [resize] only ever grows the pool: asking for no more slots than
    there are changes nothing, and two calls in a row amount to one call
    with the larger of the two sizes. *)
Theorem resize_max (n k : nat) (p : Pool) :
  (n <= length (storage p) -> resize n p = p)
  /\ resize n (resize k p) = resize (Nat.max n k) p.
Proof.
  split.
  - intros Hn. destruct (resize_spec n p) as [Hs Ha].
    apply Pool_eq; [rewrite Hs | rewrite Ha];
      replace (n - length (storage p)) with 0 by lia; apply app_nil_r.
  - destruct (resize_spec k p) as [Hs1 Ha1].
    destruct (resize_spec n (resize k p)) as [Hs2 Ha2].
    destruct (resize_spec (Nat.max n k) p) as [Hs3 Ha3].
    assert (Hlen : length (storage (resize k p))
                   = length (storage p) + (k - length (storage p))).
    { by rewrite Hs1, length_app, length_replicate. }
    apply Pool_eq.
    + rewrite Hs2, Hs3, Hlen, Hs1, <- app_assoc, <- replicate_add.
      do 2 f_equal. lia.
    + rewrite Ha2, Ha3, Hlen, Ha1, <- app_assoc. f_equal.
      rewrite <- seq_app. f_equal. lia.
Qed.

(** *** Capacity and exclusivity *)

(** X7: At every point of every run, the free indices, the leases held
    by live objects and the indices dropped by acquires whose constructor
    threw add up to the number of slots.  So there are never more leases
    out than slots, free indices and leases together never exceed the
    slots, and they add up to the slots as long as every constructor has
    returned. *)
Theorem leases_within_capacity (ops : list op) :
  length (available (the_pool (run ops))) + length (leases (run ops))
  + length (lost ops)
  = length (storage (the_pool (run ops)))
  /\ length (leases (run ops)) <= length (storage (the_pool (run ops)))
  /\ length (available (the_pool (run ops))) + length (leases (run ops))
     <= length (storage (the_pool (run ops)))
  /\ (constructors_return ops ->
      length (available (the_pool (run ops))) + length (leases (run ops))
      = length (storage (the_pool (run ops)))).
Proof.
  pose proof (run_wf_slots ops) as Hwf. unfold wf_slots in Hwf.
  apply Permutation_length in Hwf. rewrite !length_app, length_seq in Hwf.
  repeat split; try lia.
  intros Hreturn. rewrite (lost_nil ops Hreturn) in Hwf. cbn [length] in Hwf. lia.
Qed.

Lemma leased_elem (l : list Object) (k : nat) (o : Object) :
  l !! k = Some o -> pool o = this_pool -> index o ∈ omap leased l.
Proof.
  intros Hk Ho. apply list_elem_of_omap. exists o. split.
  - by eapply list_elem_of_lookup_2.
  - unfold leased. by rewrite Ho.
Qed.

Lemma leases_distinct (l : list Object) (k k' : nat) (o o' : Object) :
  NoDup (omap leased l) ->
  k ≠ k' -> l !! k = Some o -> l !! k' = Some o' ->
  pool o = this_pool -> pool o' = this_pool ->
  index o ≠ index o'.
Proof.
  revert k k'. induction l as [|x l IH]; intros k k' Hnd Hne Hk Hk' Ho Ho'; [done|].
  assert (Htail : NoDup (omap leased l)).
  { cbn [omap list_omap] in Hnd. destruct (leased x); [by apply NoDup_cons in Hnd as [_ ?] | done]. }
  destruct k as [|k], k' as [|k']; cbn in Hk, Hk'; try done.
  - injection Hk as ->. cbn [omap list_omap] in Hnd. unfold leased at 1 in Hnd.
    rewrite Ho in Hnd. apply NoDup_cons in Hnd as [Hnotin _].
    intros Heq. apply Hnotin. rewrite Heq. by eapply leased_elem.
  - injection Hk' as ->. cbn [omap list_omap] in Hnd. unfold leased at 1 in Hnd.
    rewrite Ho' in Hnd. apply NoDup_cons in Hnd as [Hnotin _].
    intros Heq. apply Hnotin. rewrite <- Heq. by eapply leased_elem.
  - eapply (IH k k'); eauto.
Qed.

(** X8: Leases are exclusive.  In any run, a write through one live lease
    leaves what every other live object designates unchanged, and so
    does an [acquire]: the slot it reconstructs is never one that is out
    on lease. *)
Theorem leases_do_not_interfere (ops : list op) (k k' : nat) (o o' : Object) :
  live (run ops) !! k = Some o ->
  live (run ops) !! k' = Some o' ->
  (forall f : TType -> TType,
      k ≠ k' ->
      arrow o' (the_pool (exec (run ops) (Mutate k f))) = arrow o' (the_pool (run ops)))
  /\ (forall p_args : TArgs,
        arrow o' (acquire p_args (the_pool (run ops))).2
        = arrow o' (the_pool (run ops))).
Proof.
  intros Hk Hk'. pose proof (run_NoDup ops) as Hnd.
  apply NoDup_app in Hnd as (_ & Hdisjoint & Hleases). split.
  - intros f Hne. cbn [Pool.exec]. rewrite Hk.
    destruct (pool o) eqn:Ho; [reflexivity|]. cbn [the_pool].
    unfold arrow. destruct (pool o') eqn:Ho'; [reflexivity|]. cbn [storage].
    apply list_lookup_alter_ne.
    by eapply (leases_distinct (live (run ops)) k k').
  - intros p_args. unfold Pool.acquire.
    destruct (available (the_pool (run ops))) as [|i rest] eqn:Hav; [reflexivity|].
    destruct (construct p_args) as [object | e]; [|reflexivity].
    cbn [snd]. unfold arrow. destruct (pool o') eqn:Ho'; [reflexivity|]. cbn [storage].
    apply list_lookup_insert_ne. intros ->.
    apply (Hdisjoint (index o')); [left | by eapply leased_elem].
Qed.

(** *** The order in which slots are handed out *)

Lemma acquire_each_queue (calls : list TArgs) (p : Pool) :
  length calls <= length (available p) ->
  exists st : list TType,
    acquire_each (returning build) calls p
    = (Returns (lease <$> take (length calls) (available p)),
       {| storage := st; available := drop (length calls) (available p) |})
    /\ length st = length (storage p).
Proof.
  revert p. induction calls as [|p_args calls IH]; intros p Hlen.
  - exists (storage p). cbn. split; [by destruct p | reflexivity].
  - cbn [acquire_each length]. cbv [mbind M_bind bind mret M_ret ret].
    unfold Pool.acquire at 1, returning at 1.
    destruct (available p) as [|i rest] eqn:Hav; [cbn in Hlen; lia|].
    destruct (IH {| storage := <[i := build p_args]> (storage p); available := rest |})
      as (st & -> & Hst).
    { cbn [available length] in *. lia. }
    exists st. cbn [available storage take drop fmap list_fmap] in *.
    split; [reflexivity|]. by rewrite Hst, length_insert.
Qed.

(** X9: Slots are recycled first in, first out.  After a lease is let go,
    the acquires that follow are served the indices that were already
    free, in the order they were queued, and only then the index just
    released. *)
Theorem released_slot_served_last (p : Pool) (o : Object) (calls : list TArgs)
    (p_args : TArgs) :
  pool o = this_pool ->
  length calls = length (available p) ->
  (acquire_each (returning build) (calls ++ [p_args]) (destroy o p)).1
  = Returns ((lease <$> available p) ++ [lease (index o)])
  /\ available (acquire_each (returning build) (calls ++ [p_args]) (destroy o p)).2 = [].
Proof.
  intros Ho Hlen.
  destruct (acquire_each_queue (calls ++ [p_args]) (destroy o p)) as (st & -> & _).
  { unfold destroy. rewrite Ho. cbn [available]. rewrite !length_app. cbn. lia. }
  unfold destroy. rewrite Ho. cbn [available fst snd].
  rewrite length_app, Hlen. cbn [length].
  replace (length (available p) + 1) with (length (available p ++ [index o]))
    by (rewrite length_app; reflexivity).
  by rewrite firstn_all, drop_all, fmap_app.
Qed.

Lemma acquire_each_fresh (calls : list TArgs) (done : list TType) (r : nat) :
  length calls <= r ->
  acquire_each (returning build) calls
    {| storage := done ++ replicate r default_construct;
       available := seq (length done) r |}
  = (Returns (lease <$> seq (length done) (length calls)),
     {| storage := done ++ (build <$> calls)
                     ++ replicate (r - length calls) default_construct;
        available := seq (length done + length calls) (r - length calls) |}).
Proof.
  revert done r. induction calls as [|p_args calls IH]; intros done r Hlen.
  - cbn. by rewrite Nat.sub_0_r, Nat.add_0_r.
  - destruct r as [|r]; [cbn in Hlen; lia|].
    cbn [acquire_each length]. cbv [mbind M_bind bind mret M_ret ret].
    unfold Pool.acquire at 1, returning at 1. cbn [available storage seq replicate].
    replace (<[length done := build p_args]>
               (done ++ default_construct :: replicate r default_construct))
      with ((done ++ [build p_args]) ++ replicate r default_construct).
    2:{ rewrite insert_app_r_alt by lia. rewrite Nat.sub_diag. cbn.
        by rewrite <- app_assoc. }
    replace (S (length done)) with (length (done ++ [build p_args]))
      by (rewrite length_app; cbn; lia).
    rewrite IH by (cbn in Hlen; lia).
    rewrite !length_app. cbn [length fmap list_fmap seq].
    rewrite <- !app_assoc. cbn [app Nat.sub].
    by replace (length done + S (length calls)) with (length done + 1 + length calls)
      by lia.
Qed.

Lemma acquire_each_exhausts (calls : list TArgs) (p : Pool) :
  length (available p) < length calls ->
  (acquire_each (returning build) calls p).1 = Throws PoolExhausted.
Proof.
  revert p. induction calls as [|p_args calls IH]; intros p Hlen; [cbn in Hlen; lia|].
  cbn [acquire_each]. cbv [mbind M_bind bind mret M_ret ret].
  unfold Pool.acquire at 1, returning at 1.
  destruct (available p) as [|i rest] eqn:Hav; [reflexivity|].
  specialize (IH {| storage := <[i := build p_args]> (storage p); available := rest |}).
  cbn [available length] in *.
  destruct (acquire_each (returning build) calls _) as [[os | e] q]; cbn [fst] in *.
  - by discriminate IH; [lia].
  - apply IH. lia.
Qed.

(** X10: A pool grown to [n] slots from nothing hands them out in order: the
    first [k <= n] acquires return the leases on slots [0 .. k-1], each
    slot holds the value built from its call's arguments, the other
    slots still hold default-constructed values and stay queued; a run
    of more than [n] acquires throws "Pool is empty". *)
Theorem fresh_pool_serves_in_order (n : nat) (calls : list TArgs) :
  (length calls <= n ->
   acquire_each (returning build) calls (resize n Pool.empty)
   = (Returns (lease <$> seq 0 (length calls)),
      {| storage := (build <$> calls)
                      ++ replicate (n - length calls) default_construct;
         available := seq (length calls) (n - length calls) |}))
  /\ (n < length calls ->
      (acquire_each (returning build) calls (resize n Pool.empty)).1 = Throws PoolExhausted).
Proof.
  assert (Hfresh : resize n Pool.empty
                   = {| storage := [] ++ replicate n default_construct;
                        available := seq (length (@nil TType)) n |}).
  { destruct (resize_spec n Pool.empty) as [Hs Ha]. apply Pool_eq.
    - rewrite Hs. cbn. by rewrite Nat.sub_0_r.
    - rewrite Ha. cbn. by rewrite Nat.sub_0_r. }
  split.
  - intros Hlen. rewrite Hfresh, acquire_each_fresh by exact Hlen. reflexivity.
  - intros Hlen. apply acquire_each_exhausts.
    rewrite Hfresh. cbn [available]. by rewrite length_seq.
Qed.

End PoolFacts.

Lemma acquire_reconstructs_sample :
  (storage (the_pool counter_run) = [105]
   /\ exists object : nat,
        returning (fun n : nat => n) 7 = Returns object
        /\ arrow (lease 0) {| storage := [7]; available := [] |} = Some object)
  /\ (the_pool (run 0 picky [Resize 2; Acquire 0])
      = {| storage := [0; 0]; available := [1] |}
      /\ exists object : nat,
           picky 7 = Returns object
           /\ arrow (lease 1) {| storage := [0; 7]; available := [] |} = Some object).
Proof.
  split.
  - split; [reflexivity|].
    apply (acquire_reconstructs 0 (returning (fun n : nat => n)) counter_session 7).
    reflexivity.
  - split; [reflexivity|].
    apply (acquire_reconstructs 0 picky [Resize 2; Acquire 0] 7).
    reflexivity.
Defined.

Lemma acquire_throws_iff_empty_sample :
  acquire (returning (fun n : nat => n)) 3 {| storage := [1]; available := [] |}
  = (Throws PoolExhausted, {| storage := [1]; available := [] |}).
Proof.
  destruct (acquire_throws_iff_empty (returning (fun n : nat => n))
              {| storage := [1]; available := [] |} 3) as (_ & _ & Hreturns).
  destruct (Hreturns (ex_intro _ 3 eq_refl)) as [_ Hunchanged].
  exact (Hunchanged PoolExhausted eq_refl).
Defined.

Lemma leases_within_capacity_sample :
  length (lost 0 picky [Resize 1; Acquire 0]) = 1
  /\ length (available (the_pool picky_run)) + length (leases picky_run) = 0.
Proof.
  destruct (leases_within_capacity 0 picky [Resize 1; Acquire 0]) as (Hall & _).
  split; [exact Hall | reflexivity].
Defined.

Lemma moved_lease_returned_once_sample :
  destroy_all
    [{| pool := nullptr; index := 0 |}; {| pool := this_pool; index := 0 |};
     {| pool := nullptr; index := 0 |}]
    {| storage := [4]; available := [] |}
  = {| storage := [4]; available := [0] |}.
Proof.
  refine (proj2 (proj2 (moved_lease_returned_once (returning (fun n : nat => n))
            {| storage := [0]; available := [0] |} 4
            {| pool := this_pool; index := 0 |} 2 eq_refl))
          {| storage := [4]; available := [] |} _ _).
  cbn. apply perm_skip, perm_swap.
Defined.

Lemma leases_do_not_interfere_sample :
  arrow (lease 1)
    (the_pool (exec 0 (returning (fun n : nat => n))
                 (run 0 (returning (fun n : nat => n)) [Resize 2; Acquire 5; Acquire 6])
                 (Mutate 0 (fun x => x + 100))))
  = Some 6.
Proof.
  destruct (leases_do_not_interfere 0 (returning (fun n : nat => n))
              [Resize 2; Acquire 5; Acquire 6] 0 1 (lease 0) (lease 1)
              eq_refl eq_refl) as [Hwrite _].
  rewrite (Hwrite (fun x => x + 100)) by lia. reflexivity.
Defined.

Lemma released_slot_served_last_sample :
  (acquire_each (returning (fun n : nat => n)) [7; 8]
     (destroy (lease 0) {| storage := [1; 2]; available := [1] |})).1
  = Returns [lease 1; lease 0].
Proof.
  exact (proj1 (released_slot_served_last (fun n : nat => n)
                  {| storage := [1; 2]; available := [1] |} (lease 0) [7] 8
                  eq_refl eq_refl)).
Defined.

End PoolFacts.

(** ** StateMachine *)

Module StateMachineFacts.

Import StateMachine.

Section StateMachineFacts.

Context {TState : Type} `{Countable TState}.
Context {World : Type}.

Local Abbreviation StateMachine := (StateMachine TState World).
Local Abbreviation Action := (@Action World).

(** *** [transitionTo] and [update] *)

(** C3: from any current state and for any target, [transitionTo] throws
    "Invalid transition" and changes nothing when no edge from the
    current state to the target is registered; when one is, it runs that
    edge's action once on the world and then makes the target the
    current state, returning normally. *)
Theorem transitionTo_spec (m : StateMachine) (w : World) (target : TState) :
  (transitions m !! (currentState m, target) = None ->
   transitionTo target (m, w) = (Throws InvalidTransition, (m, w)))
  /\ (forall action : Action,
        transitions m !! (currentState m, target) = Some action ->
        transitionTo target (m, w)
        = (Returns tt,
           ({| currentState := target; stateActions := stateActions m;
               transitions := transitions m; states := states m |},
            action w))).
Proof.
  unfold transitionTo. cbv beta iota. split.
  - intros ->. reflexivity.
  - intros action ->. reflexivity.
Qed.

Lemma update_missing_action (m : StateMachine) (w : World) :
  stateActions m !! currentState m = None ->
  update (m, w) = (Throws MissingAction, (m, w)).
Proof. unfold update. cbv beta iota. intros ->. reflexivity. Qed.

(** *** Registration *)

Lemma states_subscript_registered (s : TState) (m : StateMachine) :
  registered s m -> states_subscript s m = (Returns true, m).
Proof. unfold registered, states_subscript. by intros ->. Qed.

Lemma states_subscript_unregistered (s : TState) (m : StateMachine) :
  ~ registered s m ->
  exists m' : StateMachine,
    states_subscript s m = (Returns false, m')
    /\ states m' !! s = Some false
    /\ (forall x, x ≠ s -> states m' !! x = states m !! x).
Proof.
  unfold registered, states_subscript. intros Hs.
  destruct (states m !! s) as [[|]|] eqn:Hlook.
  - by destruct Hs.
  - exists m. by repeat split.
  - eexists. split; [reflexivity|]. cbn [set_states states]. split.
    + apply lookup_insert_eq.
    + intros x Hx. by apply lookup_insert_ne.
Qed.

Lemma hasState_lookup (s : TState) (m : StateMachine) (b : bool) :
  states m !! s = Some b -> hasState s m = true.
Proof. unfold hasState. by intros ->. Qed.

Lemma states_subscript_keeps_registered (x s : TState) (m : StateMachine) :
  registered x (states_subscript s m).2 <-> registered x m.
Proof.
  unfold registered, states_subscript.
  destruct (states m !! s) as [b|] eqn:Hlook; cbn [snd set_states states]; [done|].
  destruct (decide (s = x)) as [-> | Hne].
  - rewrite lookup_insert_eq, Hlook. split; discriminate.
  - by rewrite lookup_insert_ne.
Qed.

Lemma addState_registered (x s : TState) (m : StateMachine) :
  registered x (addState s m).2 <-> x = s \/ registered x m.
Proof.
  unfold registered, addState. cbn [snd set_states states].
  destruct (decide (s = x)) as [-> | Hne].
  - rewrite lookup_insert_eq. split; auto.
  - rewrite lookup_insert_ne by exact Hne. split; [auto | intros [-> | ?]; done].
Qed.

Lemma addTransition_keeps_registered (x s t : TState) (a : Action) (m : StateMachine) :
  registered x (addTransition s t a m).2 <-> registered x m.
Proof.
  rewrite <- (states_subscript_keeps_registered x s m).
  unfold addTransition. cbv [mbind M_bind bind throw].
  destruct (states_subscript s m) as [[[|]|e] m1]; cbn [negb snd]; try done.
  rewrite <- (states_subscript_keeps_registered x t m1).
  destruct (states_subscript t m1) as [[[|]|e] m2]; cbn [negb snd]; done.
Qed.

Lemma addAction_keeps_registered (x s : TState) (a : Action) (m : StateMachine) :
  registered x (addAction s a m).2 <-> registered x m.
Proof.
  rewrite <- (states_subscript_keeps_registered x s m).
  unfold addAction. cbv [mbind M_bind bind throw].
  destruct (states_subscript s m) as [[[|]|e] m1]; cbn [negb snd]; done.
Qed.

(** On a machine set up from scratch, the registered states are the
    ones passed to [addState]. *)
Lemma registered_iff_added (initial x : TState) (calls : list (call TState World)) :
  registered x (configure initial calls) <-> added x calls.
Proof.
  unfold configure, added. induction calls as [|c calls IH] using rev_ind.
  - cbn. unfold registered. cbn. rewrite lookup_empty, Exists_nil. split; done.
  - rewrite foldl_app, Exists_app, Exists_cons, Exists_nil. cbn [foldl].
    destruct c as [s | s t a | s a]; cbn [perform].
    + rewrite addState_registered, IH. intuition congruence.
    + rewrite addTransition_keeps_registered, IH. tauto.
    + rewrite addAction_keeps_registered, IH. tauto.
Qed.

(** The first operand of [||] decides: an unregistered [startState] or
    [state] is looked up, inserted as [false] if absent, and the call
    throws without evaluating anything else. *)
Lemma addTransition_unregistered_start (s t : TState) (a : Action) (m : StateMachine) :
  ~ registered s m ->
  exists m' : StateMachine,
    addTransition s t a m = (Throws UnregisteredState, m')
    /\ states m' !! s = Some false
    /\ (forall x, x ≠ s -> states m' !! x = states m !! x).
Proof.
  intros (m' & Hsub & Hm')%states_subscript_unregistered.
  exists m'. split; [|exact Hm'].
  unfold addTransition. cbv [mbind M_bind bind]. by rewrite Hsub.
Qed.

Lemma addAction_unregistered (s : TState) (a : Action) (m : StateMachine) :
  ~ registered s m ->
  exists m' : StateMachine,
    addAction s a m = (Throws UnregisteredState, m')
    /\ states m' !! s = Some false
    /\ (forall x, x ≠ s -> states m' !! x = states m !! x).
Proof.
  intros (m' & Hsub & Hm')%states_subscript_unregistered.
  exists m'. split; [|exact Hm'].
  unfold addAction. cbv [mbind M_bind bind]. by rewrite Hsub.
Qed.

Lemma addTransition_unregistered_final (s t : TState) (a : Action) (m : StateMachine) :
  registered t m -> ~ registered s m ->
  exists m' : StateMachine,
    addTransition t s a m = (Throws UnregisteredState, m')
    /\ states m' !! s = Some false
    /\ (forall x, x ≠ s -> states m' !! x = states m !! x).
Proof.
  intros Ht (m' & Hsub & Hm')%states_subscript_unregistered.
  exists m'. split; [|exact Hm'].
  unfold addTransition. cbv [mbind M_bind bind].
  rewrite (states_subscript_registered t m Ht). cbn [negb]. by rewrite Hsub.
Qed.

(** C10, as the code has it: naming a state [s] that [addState] did not
    register makes [addTransition(s, t, a)], [addAction(s, a)] and
    [addTransition(t, s, a)] throw "State not registered".  The first
    two leave [s] in the map with value [false], so [hasState(s)] holds
    afterwards; so does the third when [t] is registered or is [s]
    itself.  When [t] is unregistered and differs from [s], the third
    call stops at [t] and [hasState(s)] is what it was.  In every case
    [s] stays unregistered, so the same calls keep throwing. *)
Theorem unregistered_state_rejected (m : StateMachine) (s t : TState) (a : Action) :
  ~ registered s m ->
  ((addTransition s t a m).1 = Throws UnregisteredState
   /\ hasState s (addTransition s t a m).2 = true
   /\ ~ registered s (addTransition s t a m).2)
  /\ ((addAction s a m).1 = Throws UnregisteredState
      /\ hasState s (addAction s a m).2 = true
      /\ ~ registered s (addAction s a m).2)
  /\ ((addTransition t s a m).1 = Throws UnregisteredState
      /\ ~ registered s (addTransition t s a m).2
      /\ (registered t m \/ t = s -> hasState s (addTransition t s a m).2 = true)
      /\ (~ registered t m -> t ≠ s ->
          hasState s (addTransition t s a m).2 = hasState s m)).
Proof.
  intros Hs. split; [|split].
  - destruct (addTransition_unregistered_start s t a m Hs) as (m' & -> & Hm' & _).
    cbn [fst snd]. unfold registered. rewrite (hasState_lookup s m' false Hm'), Hm'.
    by repeat split.
  - destruct (addAction_unregistered s a m Hs) as (m' & -> & Hm' & _).
    cbn [fst snd]. unfold registered. rewrite (hasState_lookup s m' false Hm'), Hm'.
    by repeat split.
  - destruct (decide (states m !! t = Some true)) as [Ht | Ht].
    + destruct (addTransition_unregistered_final s t a m Ht Hs) as (m' & -> & Hm' & _).
      cbn [fst snd]. unfold registered at 1.
      rewrite (hasState_lookup s m' false Hm'), Hm'.
      repeat split; try done.
    + destruct (addTransition_unregistered_start t s a m Ht) as (m' & -> & Hm' & Hother).
      cbn [fst snd]. destruct (decide (t = s)) as [-> | Hne].
      * unfold registered at 1. rewrite (hasState_lookup s m' false Hm'), Hm'.
        repeat split; try done.
      * unfold registered at 1, hasState. rewrite (Hother s) by congruence.
        repeat split; try done. intros [? | ?]; done.
Qed.

(** *** Setting a machine up and using it *)

(** Unfold a set-up call down to the map operations. *)
Ltac unfold_setup :=
  unfold addTransition, addAction, addState, states_subscript, set_states;
  cbv [mbind M_bind bind throw].

Lemma addTransition_registered (s t : TState) (f : Action) (m : StateMachine) :
  registered s m -> registered t m ->
  addTransition s t f m
  = (Returns tt,
     {| currentState := currentState m; stateActions := stateActions m;
        transitions := <[(s, t) := f]> (transitions m); states := states m |}).
Proof.
  unfold registered. intros Hs Ht. unfold_setup.
  rewrite Hs. cbn [negb]. by rewrite Ht.
Qed.

Lemma addAction_registered (s : TState) (f : Action) (m : StateMachine) :
  registered s m ->
  addAction s f m
  = (Returns tt,
     {| currentState := currentState m; stateActions := <[s := f]> (stateActions m);
        transitions := transitions m; states := states m |}).
Proof.
  unfold registered. intros Hs. unfold_setup. by rewrite Hs.
Qed.

(** A set-up call that throws leaves edges, actions and current state
    alone. *)
Lemma addTransition_throws_frame (s t : TState) (f : Action) (m : StateMachine) :
  ~ (registered s m /\ registered t m) ->
  (addTransition s t f m).1 = Throws UnregisteredState
  /\ transitions (addTransition s t f m).2 = transitions m
  /\ stateActions (addTransition s t f m).2 = stateActions m
  /\ currentState (addTransition s t f m).2 = currentState m.
Proof.
  unfold registered. intros Hst. unfold_setup.
  destruct (states m !! s) as [[|]|] eqn:Hs; cbn; try done.
  destruct (states m !! t) as [[|]|] eqn:Ht; cbn; try done.
  by destruct Hst.
Qed.

Lemma addAction_throws_frame (s : TState) (f : Action) (m : StateMachine) :
  ~ registered s m ->
  (addAction s f m).1 = Throws UnregisteredState
  /\ transitions (addAction s f m).2 = transitions m
  /\ stateActions (addAction s f m).2 = stateActions m
  /\ currentState (addAction s f m).2 = currentState m.
Proof.
  unfold registered. intros Hs. unfold_setup.
  by destruct (states m !! s) as [[|]|] eqn:Hlook; cbn.
Qed.

(** X11: Registering two states and an edge between them always works,
    whatever the machine went through before, and the edge can then be
    taken: on any machine, [addState(s)], [addState(t)] and
    [addTransition(s, t, f)] return normally and [hasTransition(s, t)]
    holds; if the current state is [s], [transitionTo(t)] then runs [f]
    once and makes [t] the current state. *)
Theorem register_then_transition (m : StateMachine) (s t : TState) (f : Action)
    (w : World) :
  let built := (addState s ≫= fun _ => addState t ≫= fun _ => addTransition s t f) m in
  built.1 = Returns tt
  /\ hasState s built.2 = true
  /\ hasState t built.2 = true
  /\ hasTransition s t built.2 = true
  /\ (currentState m = s ->
      transitionTo t (built.2, w)
      = (Returns tt,
         ({| currentState := t; stateActions := stateActions built.2;
             transitions := transitions built.2; states := states built.2 |},
          f w))).
Proof.
  cbv zeta. cbv [mbind M_bind bind addState].
  set (m2 := set_states <[t:=true]> (set_states <[s:=true]> m)).
  assert (Hs : registered s m2).
  { unfold registered, m2. cbn [set_states states].
    destruct (decide (t = s)) as [-> | Hne].
    - apply lookup_insert_eq.
    - rewrite lookup_insert_ne by exact Hne. apply lookup_insert_eq. }
  assert (Ht : registered t m2).
  { unfold registered, m2. cbn [set_states states]. apply lookup_insert_eq. }
  rewrite (addTransition_registered s t f m2 Hs Ht). cbn [fst snd].
  unfold hasState, hasTransition, transitionTo. cbn [states transitions currentState].
  unfold registered in Hs, Ht. rewrite Hs, Ht, lookup_insert_eq.
  repeat split. intros Hcur. cbn [m2 set_states currentState]. rewrite Hcur.
  by rewrite lookup_insert_eq.
Qed.

(** X12: Registering an edge, or a per-state action, a second time replaces
    the first registration: two calls in a row leave the machine exactly
    as the second call alone would, and give its outcome. *)
Theorem last_registration_wins (m : StateMachine) (s t : TState) (f g : Action) :
  (addTransition s t f ≫= fun _ => addTransition s t g) m = addTransition s t g m
  /\ (addAction s f ≫= fun _ => addAction s g) m = addAction s g m.
Proof.
  split.
  - cbv [mbind M_bind bind].
    destruct (decide (states m !! s = Some true /\ states m !! t = Some true))
      as [[Hs Ht] | Hst].
    + rewrite (addTransition_registered s t f m Hs Ht).
      rewrite !addTransition_registered by assumption.
      cbn [currentState stateActions transitions states].
      by rewrite insert_insert_eq.
    + destruct (addTransition_throws_frame s t f m Hst) as [Hthrow _].
      destruct (addTransition s t f m) as [r m1] eqn:Hf. cbn [fst] in Hthrow. subst r.
      rewrite <- Hf. clear Hf. unfold_setup.
      destruct (states m !! s) as [[|]|]; cbn; try done.
      destruct (states m !! t) as [[|]|]; cbn; try done.
      by destruct Hst.
  - cbv [mbind M_bind bind].
    destruct (decide (states m !! s = Some true)) as [Hs | Hs].
    + rewrite (addAction_registered s f m Hs).
      rewrite !addAction_registered by assumption.
      cbn [currentState stateActions transitions states].
      by rewrite insert_insert_eq.
    + destruct (addAction_throws_frame s f m Hs) as [Hthrow _].
      destruct (addAction s f m) as [r m1] eqn:Hf. cbn [fst] in Hthrow. subst r.
      rewrite <- Hf. clear Hf. unfold_setup.
      by destruct (states m !! s) as [[|]|].
Qed.

(** X13: [update] throws "No action for current state" exactly when the
    current state has no action; it never changes the machine; when it
    throws the world is untouched, and otherwise the action of the
    current state has run once. *)
Theorem update_spec (m : StateMachine) (w : World) :
  ((update (m, w)).1 = Throws MissingAction <-> hasAction (currentState m) m = false)
  /\ (update (m, w)).2.1 = m
  /\ (hasAction (currentState m) m = false -> (update (m, w)).2.2 = w)
  /\ (forall f : Action,
        stateActions m !! currentState m = Some f ->
        update (m, w) = (Returns tt, (m, f w))).
Proof.
  unfold update, hasAction. cbv beta iota.
  destruct (stateActions m !! currentState m) as [f|]; cbn [fst snd].
  - repeat split; try discriminate. by intros ? [= <-].
  - repeat split; try done.
Qed.

(** *** What a session never undoes *)

Lemma states_subscript_keeps_hasState (x s : TState) (m : StateMachine) :
  hasState x m = true -> hasState x (states_subscript s m).2 = true.
Proof.
  unfold hasState, states_subscript.
  destruct (states m !! s) as [b|] eqn:Hs; cbn [snd set_states states]; [done|].
  destruct (decide (s = x)) as [-> | Hne].
  - by rewrite lookup_insert_eq.
  - by rewrite lookup_insert_ne.
Qed.

Lemma states_subscript_frame (s : TState) (m : StateMachine) :
  transitions (states_subscript s m).2 = transitions m
  /\ stateActions (states_subscript s m).2 = stateActions m
  /\ currentState (states_subscript s m).2 = currentState m.
Proof. unfold states_subscript. by destruct (states m !! s). Qed.

Lemma perform_keeps_hasState (x : TState) (m : StateMachine) (c : call TState World) :
  hasState x m = true -> hasState x (perform m c) = true.
Proof.
  intros Hx. destruct c as [s | s t f | s f]; cbn [perform].
  - unfold hasState, addState in *. cbn [snd set_states states].
    destruct (decide (s = x)) as [-> | Hne].
    + by rewrite lookup_insert_eq.
    + by rewrite lookup_insert_ne.
  - apply (states_subscript_keeps_hasState x s) in Hx.
    unfold addTransition. cbv [mbind M_bind bind throw].
    destruct (states_subscript s m) as [[[|]|e] m1]; cbn [negb snd] in *; try done.
    apply (states_subscript_keeps_hasState x t) in Hx.
    by destruct (states_subscript t m1) as [[[|]|e] m2]; cbn [negb snd] in *.
  - apply (states_subscript_keeps_hasState x s) in Hx.
    unfold addAction. cbv [mbind M_bind bind throw].
    by destruct (states_subscript s m) as [[[|]|e] m1]; cbn [negb snd] in *.
Qed.

Lemma perform_keeps_registered (x : TState) (m : StateMachine) (c : call TState World) :
  registered x m -> registered x (perform m c).
Proof.
  intros Hx. destruct c as [s | s t f | s f]; cbn [perform].
  - apply addState_registered. by right.
  - by apply addTransition_keeps_registered.
  - by apply addAction_keeps_registered.
Qed.

Lemma perform_current (m : StateMachine) (c : call TState World) :
  currentState (perform m c) = currentState m.
Proof.
  destruct c as [s | s t f | s f]; cbn [perform]; [reflexivity| |].
  - destruct (decide (states m !! s = Some true /\ states m !! t = Some true))
      as [[Hs Ht] | Hst].
    + by rewrite (addTransition_registered s t f m Hs Ht).
    + by destruct (addTransition_throws_frame s t f m Hst) as (_ & _ & _ & ->).
  - destruct (decide (states m !! s = Some true)) as [Hs | Hs].
    + by rewrite (addAction_registered s f m Hs).
    + by destruct (addAction_throws_frame s f m Hs) as (_ & _ & _ & ->).
Qed.

(** The edges and the actions after a set-up call: what was there, and
    at most the one the call registers, between registered states. *)
Lemma perform_edges (m : StateMachine) (c : call TState World) (from to : TState) :
  (hasTransition from to m = true -> hasTransition from to (perform m c) = true)
  /\ (is_Some (transitions (perform m c) !! (from, to)) ->
      is_Some (transitions m !! (from, to))
      \/ (registered from m /\ registered to m)).
Proof.
  unfold hasTransition. destruct c as [s | s t f | s f]; cbn [perform].
  - split; [done | by left].
  - destruct (decide (states m !! s = Some true /\ states m !! t = Some true))
      as [[Hs Ht] | Hst].
    + rewrite (addTransition_registered s t f m Hs Ht). cbn [snd transitions].
      destruct (decide ((s, t) = (from, to))) as [[= -> ->] | Hne].
      * rewrite lookup_insert_eq. split; [done | by right].
      * rewrite lookup_insert_ne by exact Hne. split; [done | by left].
    + destruct (addTransition_throws_frame s t f m Hst) as (_ & -> & _).
      split; [done | by left].
  - destruct (decide (states m !! s = Some true)) as [Hs | Hs].
    + rewrite (addAction_registered s f m Hs). split; [done | by left].
    + destruct (addAction_throws_frame s f m Hs) as (_ & -> & _).
      split; [done | by left].
Qed.

Lemma perform_actions (m : StateMachine) (c : call TState World) (x : TState) :
  (hasAction x m = true -> hasAction x (perform m c) = true)
  /\ (is_Some (stateActions (perform m c) !! x) ->
      is_Some (stateActions m !! x) \/ registered x m).
Proof.
  unfold hasAction. destruct c as [s | s t f | s f]; cbn [perform].
  - split; [done | by left].
  - destruct (decide (states m !! s = Some true /\ states m !! t = Some true))
      as [[Hs Ht] | Hst].
    + rewrite (addTransition_registered s t f m Hs Ht). split; [done | by left].
    + destruct (addTransition_throws_frame s t f m Hst) as (_ & _ & -> & _).
      split; [done | by left].
  - destruct (decide (states m !! s = Some true)) as [Hs | Hs].
    + rewrite (addAction_registered s f m Hs). cbn [snd stateActions].
      destruct (decide (s = x)) as [-> | Hne].
      * rewrite lookup_insert_eq. split; [done | by right].
      * rewrite lookup_insert_ne by exact Hne. split; [done | by left].
    + destruct (addAction_throws_frame s f m Hs) as (_ & _ & -> & _).
      split; [done | by left].
Qed.

(** [transitionTo] and [update] touch none of the three maps. *)
Lemma use_frame (mw : StateMachine * World) (u : use TState World) :
  match u with
  | Setup _ => True
  | _ => states (step mw u).1 = states mw.1
         /\ transitions (step mw u).1 = transitions mw.1
         /\ stateActions (step mw u).1 = stateActions mw.1
  end.
Proof.
  destruct mw as [m w]. destruct u as [c | target |]; [done | |]; cbn [step fst snd].
  - unfold transitionTo. by destruct (transitions m !! (currentState m, target)).
  - unfold update. by destruct (stateActions m !! currentState m).
Qed.

Lemma step_keeps (mw : StateMachine * World) (u : use TState World)
    (x from to : TState) :
  (hasState x mw.1 = true -> hasState x (step mw u).1 = true)
  /\ (hasTransition from to mw.1 = true -> hasTransition from to (step mw u).1 = true)
  /\ (hasAction x mw.1 = true -> hasAction x (step mw u).1 = true)
  /\ (registered x mw.1 -> registered x (step mw u).1).
Proof.
  pose proof (use_frame mw u) as Hframe.
  destruct u as [c | target |].
  - cbn [step fst]. repeat split.
    + apply perform_keeps_hasState.
    + apply perform_edges.
    + apply perform_actions.
    + apply perform_keeps_registered.
  - destruct Hframe as (Hst & Htr & Hac).
    unfold hasState, hasTransition, hasAction, registered. by rewrite Hst, Htr, Hac.
  - destruct Hframe as (Hst & Htr & Hac).
    unfold hasState, hasTransition, hasAction, registered. by rewrite Hst, Htr, Hac.
Qed.

(** X14: Nothing is ever taken back: a state that [hasState] reports, an
    edge that [hasTransition] reports, an action that [hasAction]
    reports and a registered state are still there after any further
    set-up calls, transitions and updates, whether these throw or
    not. *)
Theorem registrations_never_removed (mw : StateMachine * World)
    (uses : list (use TState World)) (x from to : TState) :
  (hasState x mw.1 = true -> hasState x (foldl step mw uses).1 = true)
  /\ (hasTransition from to mw.1 = true ->
      hasTransition from to (foldl step mw uses).1 = true)
  /\ (hasAction x mw.1 = true -> hasAction x (foldl step mw uses).1 = true)
  /\ (registered x mw.1 -> registered x (foldl step mw uses).1).
Proof.
  revert mw. induction uses as [|u uses IH]; intros mw; cbn [foldl]; [done|].
  destruct (step_keeps mw u x from to) as (Hs & Ht & Ha & Hr).
  destruct (IH (step mw u)) as (IHs & IHt & IHa & IHr).
  repeat split; auto.
Qed.

Lemma step_well_registered (mw : StateMachine * World) (u : use TState World) :
  well_registered mw.1 -> well_registered (step mw u).1.
Proof.
  intros [Hedges Hactions]. pose proof (use_frame mw u) as Hframe.
  destruct u as [c | target |].
  - cbn [step fst]. split.
    + intros from to Hedge.
      destruct (proj2 (perform_edges mw.1 c from to) Hedge) as [Hold | [Hf Ht]].
      * destruct (Hedges from to Hold). split; by apply perform_keeps_registered.
      * split; by apply perform_keeps_registered.
    + intros x Haction.
      destruct (proj2 (perform_actions mw.1 c x) Haction) as [Hold | Hx].
      * by apply perform_keeps_registered, Hactions.
      * by apply perform_keeps_registered.
  - destruct Hframe as (Hst & Htr & Hac). unfold well_registered, registered.
    rewrite Hst, Htr, Hac. by split.
  - destruct Hframe as (Hst & Htr & Hac). unfold well_registered, registered.
    rewrite Hst, Htr, Hac. by split.
Qed.

Lemma step_current (initial : TState) (mw : StateMachine * World)
    (u : use TState World) :
  well_registered mw.1 ->
  currentState mw.1 = initial \/ registered (currentState mw.1) mw.1 ->
  currentState (step mw u).1 = initial
  \/ registered (currentState (step mw u).1) (step mw u).1.
Proof.
  intros [Hedges _] Hcur. destruct mw as [m w]. cbn [fst] in *.
  destruct u as [c | target |]; cbn [step fst snd].
  - rewrite perform_current. destruct Hcur as [? | Hreg]; [by left | right].
    by apply perform_keeps_registered.
  - unfold transitionTo.
    destruct (transitions m !! (currentState m, target)) as [f|] eqn:Hedge;
      cbn [fst snd]; [|exact Hcur].
    right. unfold registered. cbn [currentState states].
    by destruct (Hedges (currentState m) target) as [_ Ht]; [rewrite Hedge|].
  - unfold update. by destruct (stateActions m !! currentState m).
Qed.

(** X15: On a machine that starts empty, whatever the client then does with
    it: edges only join registered states, actions only belong to
    registered states, the current state is the initial value or a
    registered state, and a [transitionTo] that returns has moved to a
    registered state. *)
Theorem session_well_registered (initial : TState) (w : World)
    (uses : list (use TState World)) (target : TState) :
  well_registered (session initial w uses).1
  /\ (currentState (session initial w uses).1 = initial
      \/ registered (currentState (session initial w uses).1)
           (session initial w uses).1)
  /\ ((transitionTo target (session initial w uses)).1 = Returns tt ->
      registered target (session initial w uses).1).
Proof.
  assert (Hinv : well_registered (session initial w uses).1
                 /\ (currentState (session initial w uses).1 = initial
                     \/ registered (currentState (session initial w uses).1)
                          (session initial w uses).1)).
  { unfold session. induction uses as [|u uses IH] using rev_ind.
    - cbn. split; [|by left]. split.
      + intros from to. cbn. rewrite lookup_empty. by intros [? ?].
      + intros x. cbn. rewrite lookup_empty. by intros [? ?].
    - rewrite foldl_app. cbn [foldl]. destruct IH as [Hwf Hcur].
      split; [by apply step_well_registered | by apply step_current]. }
  destruct Hinv as [Hwf Hcur]. split; [exact Hwf | split; [exact Hcur|]].
  destruct (session initial w uses) as [m w'] eqn:Hsession. cbn [fst] in *.
  unfold transitionTo.
  destruct (transitions m !! (currentState m, target)) as [f|] eqn:Hedge;
    cbn [fst]; [|discriminate].
  intros _. by destruct (proj1 Hwf (currentState m) target) as [_ Ht]; [rewrite Hedge|].
Qed.

Lemma step_registered (mw : StateMachine * World) (u : use TState World) (x : TState) :
  registered x (step mw u).1 <-> u = Setup (AddState x) \/ registered x mw.1.
Proof.
  pose proof (use_frame mw u) as Hframe.
  destruct u as [[s | s t f | s f] | target |].
  - cbn [step fst perform]. rewrite addState_registered. split.
    + intros [-> | ?]; [by left | by right].
    + intros [[= ->] | ?]; [by left | by right].
  - cbn [step fst perform]. rewrite addTransition_keeps_registered.
    split; [by right | by intros [? | ?]].
  - cbn [step fst perform]. rewrite addAction_keeps_registered.
    split; [by right | by intros [? | ?]].
  - destruct Hframe as (Hst & _). unfold registered. rewrite Hst.
    split; [by right | by intros [? | ?]].
  - destruct Hframe as (Hst & _). unfold registered. rewrite Hst.
    split; [by right | by intros [? | ?]].
Qed.

(** X16: Only [addState] registers.  On a machine that starts empty and
    after anything the client does with it, a state is registered
    exactly when [addState] was called on it: the entries that a
    rejected [addTransition] or [addAction] leaves in the map never
    count, and no transition or update registers anything. *)
Theorem registered_iff_addState_called (initial : TState) (w : World)
    (uses : list (use TState World)) (x : TState) :
  registered x (session initial w uses).1 <-> Setup (AddState x) ∈ uses.
Proof.
  unfold session. induction uses as [|u uses IH] using rev_ind.
  - cbn. unfold registered. cbn. rewrite lookup_empty, elem_of_nil. split; done.
  - rewrite foldl_app, elem_of_app, list_elem_of_singleton. cbn [foldl].
    rewrite step_registered, IH. split; intros [? | ?]; auto.
Qed.

End StateMachineFacts.

Lemma transitionTo_spec_sample :
  getCurrentState (transitionTo 1 (two_states, 0)).2.1 = 1
  /\ (transitionTo 1 (two_states, 0)).2.2 = 1
  /\ transitionTo 0 (two_states, 0) = (Throws InvalidTransition, (two_states, 0)).
Proof.
  pose proof (transitionTo_spec two_states 0 1) as [_ Hedge].
  pose proof (transitionTo_spec two_states 0 0) as [Hnone _].
  rewrite (Hedge tick eq_refl), (Hnone eq_refl).
  repeat split.
Defined.

Lemma unregistered_state_rejected_sample :
  (addAction 5 tick two_states).1 = Throws UnregisteredState
  /\ hasState 5 (addTransition 0 5 tick two_states).2 = true
  /\ hasState 5 (addTransition 6 5 tick two_states).2 = hasState 5 two_states.
Proof.
  assert (H5 : ~ registered 5 two_states) by (vm_compute; discriminate).
  assert (H6 : ~ registered 6 two_states) by (vm_compute; discriminate).
  destruct (unregistered_state_rejected two_states 5 0 tick H5)
    as (_ & (Hact & _) & (_ & _ & Hin & _)).
  destruct (unregistered_state_rejected two_states 5 6 tick H5)
    as (_ & _ & (_ & _ & _ & Hout)).
  split; [exact Hact|]. split.
  - apply Hin. left. reflexivity.
  - apply Hout; [exact H6 | lia].
Defined.

(** With [t] unregistered too, [addTransition(t, s, a)] throws on [t]
    and never looks [s] up: [hasState(s)] is still false. *)
Lemma addTransition_short_circuit_counterexample :
  ~ registered 1 (fresh 0 : StateMachine nat nat)
  /\ (addTransition 2 1 tick (fresh 0)).1 = Throws UnregisteredState
  /\ hasState 1 (addTransition 2 1 tick (fresh 0)).2 = false.
Proof.
  split; [vm_compute; discriminate|]. split; reflexivity.
Qed.

End StateMachineFacts.

(** ** Calls that throw after they have changed the object *)

Module FailureEffects.

Import DataBuffer StateMachine.

(** C1, on the code: two kinds of call throw after a change that stays.
    [operator>>] on a string erases the length prefix before it finds the
    text too short: a buffer of ten bytes comes back with two.
    [addAction] and [addTransition] look the unregistered state up with
    [operator[]], which inserts it: [hasState] goes from false to
    true. *)
Theorem failed_calls_change_state :
  (length (buffer truncated_text) = 10
   /\ shr_string truncated_text
      = (Throws BufferUnderflow, {| buffer := [Byte.x68; Byte.x65] |}))
  /\ (hasState 7 two_states = false
      /\ (addAction 7 tick two_states).1 = Throws UnregisteredState
      /\ hasState 7 (addAction 7 tick two_states).2 = true)
  /\ ((addTransition 7 0 tick two_states).1 = Throws UnregisteredState
      /\ hasState 7 (addTransition 7 0 tick two_states).2 = true
      /\ (addTransition 0 7 tick two_states).1 = Throws UnregisteredState
      /\ hasState 7 (addTransition 0 7 tick two_states).2 = true).
Proof.
  split; [|split].
  - split; [reflexivity|].
    apply (DataBufferFacts.shr_string_underflow_consumes 5%Z [Byte.x68; Byte.x65]);
      cbn; lia.
  - repeat split; reflexivity.
  - repeat split; reflexivity.
Qed.

End FailureEffects.

(** ** Memento *)

Module MementoFacts.

Import DataBuffer Memento.

Lemma Player_save_layout (p : Player) :
  player_ok p ->
  Player_save p
  = (Returns {| snapshot_buffer :=
                  {| buffer := @object_bytes int int_FixedSize (health p)
                               ++ object_bytes (Z.of_nat (length (name p)) : size_t)
                               ++ name p |} |}, p).
Proof.
  intros [_ Hname]. unfold Player_save, save, Player_saveToSnapshot, forward.
  cbv [mbind M_bind bind]. cbn [new_Snapshot snapshot_buffer].
  rewrite DataBufferFacts.shl_appends. cbn [snapshot_buffer].
  by rewrite DataBufferFacts.shl_string_appends.
Qed.

(** X17: [save] then [load]: the snapshot that [save] returns for a player
    brings any other player to the saved state, and [save] leaves the
    player it reads as it was. *)
Theorem Player_save_load (p : Player) :
  player_ok p ->
  exists snap : Snapshot,
    Player_save p = (Returns snap, p)
    /\ forall q : Player, Player_load snap q = (Returns tt, p).
Proof.
  intros Hp. eexists. split; [by apply Player_save_layout|].
  intros q. destruct Hp as [Hhealth Hname].
  unfold Player_load, load, Player_loadFromSnapshot, forward. cbn [snapshot_buffer].
  rewrite (DataBufferFacts.shr_head (H := int_FixedSize) (health p)) by exact Hhealth.
  cbn [snapshot_buffer].
  rewrite <- (app_nil_r (name p)) at 2.
  rewrite DataBufferFacts.shr_string_head by exact Hname.
  by destruct p.
Qed.

Lemma Player_save_load_sample :
  exists snap : Snapshot,
    Player_save {| health := (-3)%Z; name := hello |}
    = (Returns snap, {| health := (-3)%Z; name := hello |})
    /\ forall q : Player,
         Player_load snap q = (Returns tt, {| health := (-3)%Z; name := hello |}).
Proof.
  apply (Player_save_load {| health := (-3)%Z; name := hello |}).
  split; cbn; lia.
Defined.

(** X18: [load] is not all-or-nothing: from a snapshot that holds a health
    value but not the whole length of a name, it throws
    "Buffer underflow" after it has overwritten [health]; [name] keeps
    its old value. *)
Theorem Player_load_truncated (h : int) (short : list byte) (q : Player) :
  (- 2 ^ 31 <= h < 2 ^ 31)%Z ->
  length short < 8 ->
  Player_load
    {| snapshot_buffer := {| buffer := @object_bytes int int_FixedSize h ++ short |} |} q
  = (Throws BufferUnderflow, {| health := h; name := name q |}).
Proof.
  intros Hh Hshort.
  unfold Player_load, load, Player_loadFromSnapshot, forward. cbn [snapshot_buffer].
  rewrite (DataBufferFacts.shr_head (H := int_FixedSize) h) by exact Hh.
  cbn [snapshot_buffer].
  by rewrite DataBufferFacts.shr_string_no_prefix.
Qed.

Lemma Player_load_truncated_sample :
  Player_load
    {| snapshot_buffer :=
         {| buffer := @object_bytes int int_FixedSize 42%Z ++ [Byte.x05; Byte.x00] |} |}
    {| health := 1%Z; name := hello |}
  = (Throws BufferUnderflow, {| health := 42%Z; name := hello |}).
Proof.
  apply (Player_load_truncated 42%Z [Byte.x05; Byte.x00] {| health := 1%Z; name := hello |}).
  - lia.
  - cbn. lia.
Defined.

End MementoFacts.

(** ** Observer *)

Module ObserverFacts.

Import Observer.

Section ObserverFacts.

Context {TEvent : Type} `{Countable TEvent}.
Context {World : Type}.

Local Abbreviation Observer := (Observer TEvent World).
Local Abbreviation Callback := (@Callback World).

Lemma subscribe_lookup (event e : TEvent) (lambda : Callback) (this : Observer) :
  (subscribe event lambda this).1 = Returns tt
  /\ subscribers (subscribe event lambda this).2 !! e
     = if decide (event = e)
       then Some (default [] (subscribers this !! event) ++ [lambda])
       else subscribers this !! e.
Proof.
  unfold subscribe, subscribers_subscript, assign. cbv [mbind M_bind bind].
  destruct (subscribers this !! event) as [lambdas|] eqn:Hlook;
    cbn [fst snd subscribers default]; (split; [reflexivity|]);
    destruct (decide (event = e)) as [-> | Hne];
    rewrite ?lookup_insert_eq, ?lookup_insert_ne by exact Hne; try done.
Qed.

Lemma subscribed_to_cons (e event : TEvent) (lambda : Callback)
    (history : list (TEvent * Callback)) :
  subscribed_to e ((event, lambda) :: history)
  = if decide (event = e) then lambda :: subscribed_to e history
    else subscribed_to e history.
Proof.
  unfold subscribed_to. rewrite filter_cons. cbn [fst].
  by destruct (decide (event = e)).
Qed.

Lemma subscribe_all_lookup (history : list (TEvent * Callback)) (this : Observer)
    (e : TEvent) :
  subscribers (subscribe_all history this) !! e
  = match subscribers this !! e, subscribed_to e history with
    | Some before, added => Some (before ++ added)
    | None, [] => None
    | None, added => Some added
    end.
Proof.
  revert this. induction history as [|[event lambda] history IH]; intros this.
  - cbn. destruct (subscribers this !! e); [by rewrite app_nil_r | done].
  - unfold subscribe_all in *. cbn [foldl]. rewrite IH, subscribed_to_cons.
    destruct (subscribe_lookup event e lambda this) as [_ ->].
    destruct (decide (event = e)) as [-> | Hne]; [|done].
    destruct (subscribers this !! e) as [before|]; cbn [default app].
    + by rewrite <- app_assoc.
    + done.
Qed.

(** X19: After any history of [subscribe] calls on a new observer,
    [notify(event)] calls the callbacks subscribed to [event], each
    once, oldest first, calls no other, and leaves the observer as it
    was. *)
Theorem notify_calls_subscribed (history : list (TEvent * Callback)) (event : TEvent)
    (w : World) :
  notify event (subscribe_all history empty, w)
  = (Returns tt,
     (subscribe_all history empty, call_all (subscribed_to event history) w)).
Proof.
  unfold notify, subscribers_subscript. cbv beta iota.
  rewrite subscribe_all_lookup. cbn [empty subscribers]. rewrite lookup_empty.
  destruct (subscribed_to event history) as [|lambda added]; reflexivity.
Qed.

(** X20: [notify] never throws and never changes the subscriber map,
    whatever the observer and the event: the [find] guard keeps
    [operator[]] from inserting an event nobody subscribed to, and for
    such an event no callback runs. *)
Theorem notify_keeps_subscribers (this : Observer) (event : TEvent) (w : World) :
  (notify event (this, w)).1 = Returns tt
  /\ (notify event (this, w)).2.1 = this
  /\ (subscribers this !! event = None -> (notify event (this, w)).2.2 = w).
Proof.
  unfold notify, subscribers_subscript. cbv beta iota.
  destruct (subscribers this !! event) as [lambdas|]; cbn [fst snd].
  - repeat split. discriminate.
  - repeat split.
Qed.

End ObserverFacts.

Lemma notify_calls_subscribed_sample :
  notify 1 (subscribe_all [(1, Nat.mul 2); (2, Nat.add 100); (1, S)] empty, 5)
  = (Returns tt,
     (subscribe_all [(1, Nat.mul 2); (2, Nat.add 100); (1, S)] empty, 11)).
Proof.
  exact (notify_calls_subscribed [(1, Nat.mul 2); (2, Nat.add 100); (1, S)] 1 5).
Defined.

End ObserverFacts.

(** ** Singleton *)

Module SingletonFacts.

Import Singleton.

Section SingletonFacts.

Context {TType TArgs : Type}.
Variable construct : TArgs -> TType.

Lemma instanciate_all_taken (calls : list TArgs) (x : TType) :
  instanciate_all construct calls (Some x)
  = ((fun _ => Throws InstanceExists) <$> calls, Some x).
Proof.
  induction calls as [|p_args calls IH]; [reflexivity|].
  cbn [instanciate_all instanciate]. by rewrite IH.
Qed.

(** X21: The first [instanciate] wins: in any run of calls that starts with
    no instance, the first call returns and every later one throws
    "Instance already exists"; [instance()] then yields the object
    built from the first call's arguments. *)
Theorem first_instanciate_wins (p_args : TArgs) (later : list TArgs) :
  instanciate_all construct (p_args :: later) initial
  = (Returns tt :: ((fun _ => Throws InstanceExists) <$> later),
     Some (construct p_args))
  /\ instance (instanciate_all construct (p_args :: later) initial).2
     = (Returns (Some (construct p_args)), Some (construct p_args)).
Proof.
  cbn [instanciate_all instanciate initial].
  rewrite instanciate_all_taken. split; reflexivity.
Qed.

End SingletonFacts.

End SingletonFacts.
